(** * codeart-binexplore examples: Vector addition and dense matrix product

    A shallow embedding of [examples/src/vector.h], [examples/src/mmul.cc]
    and [examples/src/main.cc].

    - C++ [float] is IEEE-754 binary32.  It is modelled by the Standard
      Library's [spec_float] at precision 24 and maximal exponent 128
      (round-to-nearest-even, a single NaN without payload).
    - [size_t] indices are modelled by [nat]: every loop counter of the
      sources is bounded by a container size, so it never wraps.
    - Undefined behaviour of the sources (an out-of-range element access)
      is modelled by [None] in the [option] monad; [Some] is a defined run.
    - [Vector] objects live in a store indexed by locations, because
      [operator+=] mutates its receiver and hands back a reference to it. *)

From Stdlib Require Import ZArith String Ascii.
From Stdlib Require Import Floats.SpecFloat.
From stdpp Require Import base option list gmap.

Set Default Proof Using "Type".

(** ** Element arithmetic *)

(** The three operations the sources use on elements: the literal [0.0f],
    [+] (through [+=]) and [*]. *)
Class Scalar (T : Type) := {
  s_zero : T;
  s_add : T → T → T;
  s_mul : T → T → T;
}.

(** ** Counted loops *)

(** [for (size_t i = start; i < start + count; ++i) body]: the body runs
    at [start], [start + 1], ... and threads the state; a step with
    undefined behaviour aborts the run.  The bounds of all loops in the
    sources are sizes that their bodies do not change. *)
Fixpoint for_loop {St : Type} (body : nat → St → option St)
    (start count : nat) (s : St) : option St :=
  match count with
  | 0 => Some s
  | S c => s' ← body start s; for_loop body (S start) c s'
  end.

Definition for_upto {St : Type} (n : nat) (body : nat → St → option St)
    (s : St) : option St :=
  for_loop body 0 n s.

(** Locations of [Vector] objects in the store. *)
Abbreviation loc := nat (only parsing).

Section Generic.
Context {T : Type} `{Scalar T}.

(** ** mmul.cc: class Matrix *)

(** Modelled from the spec: the member functions of [Matrix] (the
    constructor, [get_height], [get_width], [get] and [set]) are only
    declared in [mmul.cc]; their bodies sit behind [MatrixPimpl].  The
    model is the spec's "height × width grid of 32-bit floats,
    addressable by zero-based (row, column) coordinates", stored as one
    buffer "indexed by [row * width + col]", with out-of-range access
    undefined.  The spec does not give the cells of a fresh matrix; the
    model fills them with zero, and no theorem below depends on it. *)
Record Matrix := {
  get_height : nat;
  get_width : nat;
  cells : list T;
}.

(** Modelled from the spec: the constructor [Matrix(height, width)],
    "created with explicit dimensions". *)
Definition Matrix_new (height width : nat) : Matrix :=
  {| get_height := height; get_width := width;
     cells := replicate (height * width) s_zero |}.

(** Modelled from the spec: the bounds of [get] and [set],
    "[0 ≤ i < height], [0 ≤ j < width] for all accesses". *)
Definition in_range (m : Matrix) (i j : nat) : bool :=
  (i <? get_height m) && (j <? get_width m).

(** Modelled from the spec: [float get(size_t i, size_t j) const],
    "[get(i,j)] reads"; out of bounds is undefined. *)
Definition get (m : Matrix) (i j : nat) : option T :=
  if in_range m i j then cells m !! (i * get_width m + j) else None.

(** Modelled from the spec: [void set(size_t i, size_t j, float value)],
    "[set(i,j,value)] writes"; out of bounds is undefined. *)
Definition set (m : Matrix) (i j : nat) (value : T) : option Matrix :=
  if in_range m i j then
    Some {| get_height := get_height m; get_width := get_width m;
            cells := <[i * get_width m + j := value]> (cells m) |}
  else None.

(** Every matrix built by the constructor and [set] owns a buffer of
    [height * width] cells. *)
Definition wf (m : Matrix) : Prop :=
  length (cells m) = get_height m * get_width m.

(** A matrix given by its cells, row by row. *)
Definition Matrix_init (height width : nat) (f : nat → nat → T) : Matrix :=
  {| get_height := height; get_width := width;
     cells := (λ p, f (p / width) (p mod width)) <$> seq 0 (height * width) |}.

(** ** mmul.cc: mul *)

Definition mul (lhs rhs : Matrix) : option Matrix :=
  let result := Matrix_new (get_height lhs) (get_width rhs) in
  for_upto (get_height lhs) (λ i result,
    for_upto (get_width rhs) (λ j result,
      sum ← for_upto (get_width lhs) (λ k sum,
               a ← get lhs i k;
               b ← get rhs k j;
               Some (s_add sum (s_mul a b))) s_zero;
      set result i j sum) result) result.

(** The spec's words for one output cell: "sum over [k2] of
    [lhs[i,k2] * rhs[k2,j]]", accumulated from zero for
    [k2 = 0, 1, ..., k - 1] in that order. *)
Definition cell (m : Matrix) (i j : nat) : T :=
  default s_zero (get m i j).

Definition dot (lhs rhs : Matrix) (i j k : nat) : T :=
  foldl (λ sum k2, s_add sum (s_mul (cell lhs i k2) (cell rhs k2 j)))
        s_zero (seq 0 k).

(** The invariant of the two outer loops of [mul]: [result] has its
    final shape, and the cells before [(i, j)] in row-major order hold
    their sums. *)
Definition filled (lhs rhs result : Matrix) (i j : nat) : Prop :=
  wf result
  ∧ get_height result = get_height lhs
  ∧ get_width result = get_width rhs
  ∧ ∀ i' j', j' < get_width rhs → i' < i ∨ (i' = i ∧ j' < j) →
             get result i' j' = Some (dot lhs rhs i' j' (get_width lhs)).

(** ** vector.h: class Vector *)

(** A [Vector] object is its [data_] member; objects are found in a
    store by their location.

    [std::span<const float> data() const]: a view of the elements of the
    object, given by where they are and how many. *)
Definition data (this : loc) (h : gmap loc (list T)) : option (loc * nat) :=
  data_ ← h !! this;
  Some (this, length data_).

(** [Vector &operator+=(const Vector &rhs)]: [this] and [rhs] are
    references and may name the same object.  The result is the
    reference [*this]. *)
Definition op_add_assign (this rhs : loc) (h : gmap loc (list T))
    : option (loc * gmap loc (list T)) :=
  data_ ← h !! this;
  h' ← for_upto (length data_) (λ i h,
          d ← h !! this;
          r ← h !! rhs;
          x ← d !! i;
          y ← r !! i;
          Some (<[this := <[i := s_add x y]> d]> h)) h;
  Some (this, h').

(** [data_] of the receiver after [i] iterations of the loop of
    [operator+=], started on [d] with the right operand [r]. *)
Definition partial_sum (d r : list T) (i : nat) : list T :=
  take i (zip_with s_add d r) ++ drop i d.

(** [Vector operator+(Vector lhs, const Vector &rhs) { return lhs += rhs; }]
    called with the object at [a] as first argument: the parameter [lhs]
    is a fresh object copied from [a], the returned value is a copy of
    the object that [+=] refers to, and the parameter dies on return. *)
Definition op_add (a rhs : loc) (h : gmap loc (list T))
    : option (list T * gmap loc (list T)) :=
  arg ← h !! a;
  let lhs := fresh (dom h) in
  '(ref, h') ← op_add_assign lhs rhs (<[lhs := arg]> h);
  result ← h' !! ref;
  Some (result, delete lhs h').

(** [a + b] on two vector values: [a] and [b] are placed in a store as
    two objects and the sum is computed by [operator+]. *)
Definition add (a b : list T) : option (list T) :=
  fst <$> op_add 0 1 (<[0 := a]> (<[1 := b]> ∅)).

End Generic.

Arguments Matrix T : clear implicits.

(** ** C++ float: IEEE-754 binary32 *)

Definition prec : Z := 24.
Definition emax : Z := 128.

(** A float literal with an integral value, such as [5.0f]. *)
Definition f32_of_Z (z : Z) : spec_float := binary_normalize prec emax z 0 false.

(** The values a C++ [float] can hold: a finite value has its canonical
    mantissa and exponent. *)
Definition is_float (x : spec_float) : Prop := valid_binary prec emax x = true.

(** Neither an infinity nor NaN. *)
Definition finite (x : spec_float) : bool :=
  match x with
  | S754_zero _ | S754_finite _ _ _ => true
  | S754_infinity _ | S754_nan => false
  end.

(** The comparison [==] of two floats: NaN differs from everything, and
    the two zeros are equal. *)
Definition f32_eqb (x y : spec_float) : bool := SFeqb x y.

#[export] Instance f32_scalar : Scalar spec_float := {|
  s_zero := S754_zero false;
  s_add := SFadd prec emax;
  s_mul := SFmul prec emax;
|}.

(** [p] followed by [n] zero bits: [p * 2^n]. *)
Definition shift (p : positive) (n : nat) : positive := Nat.iter n xO p.

(** The float [± p] for a positive integer [p] below [2^24]: the mantissa
    is [p] moved up to 24 bits. *)
Definition f32_canon (s : bool) (p : positive) : spec_float :=
  let n := 24 - Pos.to_nat (digits2_pos p) in
  S754_finite s (shift p n) (- Z.of_nat n).

(** The float that holds the integer [z], for [|z| < 2^24]. *)
Definition f32_int (z : Z) : spec_float :=
  match z with
  | 0%Z => S754_zero false
  | Z.pos p => f32_canon false p
  | Z.neg p => f32_canon true p
  end.

(** Exact arithmetic, to tell the algorithm from the rounding. *)
#[export] Instance Z_scalar : Scalar Z := {|
  s_zero := 0%Z;
  s_add := Z.add;
  s_mul := Z.mul;
|}.

(** The sum of [f 0], ..., [f (n - 1)] in exact arithmetic, accumulated
    in the order of the innermost loop of [mul]. *)
Definition Zsum (f : nat → Z) (n : nat) : Z :=
  foldl (λ sum k, sum + f k)%Z 0%Z (seq 0 n).

(** The matrices the spec's properties name: "ones on the diagonal, zeros
    elsewhere", and the all-zero matrix. *)
Definition identity (k : nat) : Matrix spec_float :=
  Matrix_init k k (λ i j, if i =? j then f32_of_Z 1 else S754_zero false).

Definition zeros (height width : nat) : Matrix spec_float :=
  Matrix_init height width (λ _ _, S754_zero false).

(** All cells of a matrix satisfy [P]. *)
Definition all_cells {T : Type} (P : T → Prop) (m : Matrix T) : Prop :=
  Forall P (cells m).

(** A float that is neither an infinity nor NaN. *)
Definition finite_float (x : spec_float) : Prop :=
  is_float x ∧ finite x = true.

(** A matrix literal, written as the list of its rows. *)
Definition matrix_of_rows {T : Type} (rows : list (list T)) : Matrix T :=
  {| get_height := length rows;
     get_width := length (default [] (head rows));
     cells := concat rows |}.

(** Float literals with integral values: [{1.0f, 2.0f, 3.0f}]. *)
Definition f32_vector (l : list Z) : list spec_float := f32_of_Z <$> l.

Definition f32_matrix (rows : list (list Z)) : Matrix spec_float :=
  matrix_of_rows (f32_vector <$> rows).

Definition Matrix_map {T U : Type} (f : T → U) (m : Matrix T) : Matrix U :=
  {| get_height := get_height m; get_width := get_width m;
     cells := f <$> cells m |}.

(** The float matrix whose cells hold the integers of [m]. *)
Definition f32_of_Zmatrix (m : Matrix Z) : Matrix spec_float :=
  Matrix_map f32_of_Z m.

(** The matrix with rows and columns exchanged. *)
Definition transpose {T : Type} `{Scalar T} (m : Matrix T) : Matrix T :=
  Matrix_init (get_width m) (get_height m) (λ i j, cell m j i).

(** A float with a negative zero made positive: what [0.0f + x] is. *)
Definition positive_zero (x : spec_float) : spec_float :=
  match x with
  | S754_zero true => S754_zero false
  | _ => x
  end.

(** ** The stream inserter for [float] *)

(** [std::cout << elem] is the C++ library's, not this repository's.  On a
    stream in its initial state (precision 6, no [floatfield] flag) it
    prints as [printf("%g")] does: six significant decimal digits, rounded
    to nearest-even from the exact value, in fixed notation when the
    decimal exponent [X] satisfies [-4 <= X < 6] and in scientific notation
    otherwise, trailing zeros and a trailing point removed. *)

Definition digit (d : Z) : ascii := ascii_of_nat (48 + Z.to_nat d).

(** The [n] low decimal digits of [z], most significant first. *)
Fixpoint digits (n : nat) (z : Z) : list ascii :=
  match n with
  | 0 => []
  | S n' => digits n' (z / 10) ++ [digit (z mod 10)]
  end.

Fixpoint strip_zeros (l : list ascii) : list ascii :=
  match l with
  | [] => []
  | c :: l' =>
      match strip_zeros l' with
      | [] => if Ascii.eqb c "0" then [] else [c]
      | r => c :: r
      end
  end.

(** [10^X <= N / D] for positive [N] and [D]. *)
Definition pow10_le (X N D : Z) : bool :=
  if (0 <=? X)%Z then (10 ^ X * D <=? N)%Z else (D <=? N * 10 ^ (- X))%Z.

Fixpoint search_exp (fuel : nat) (X N D : Z) : Z :=
  match fuel with
  | 0 => X
  | S fuel' => if pow10_le X N D then X else search_exp fuel' (X - 1)%Z N D
  end.

(** The largest [X] with [10^X <= N / D]; it lies between
    [- (log2 D + 1)] and [log2 N]. *)
Definition decimal_exponent (N D : Z) : Z :=
  search_exp (Z.to_nat (Z.log2 N + Z.log2 D + 1)) (Z.log2 N) N D.

Definition round_half_even (num den : Z) : Z :=
  let q := (num / den)%Z in
  match (2 * (num mod den) ?= den)%Z with
  | Lt => q
  | Gt => (q + 1)%Z
  | Eq => if Z.even q then q else (q + 1)%Z
  end.

(** [N / D * 10^(5 - X)] rounded to an integer: six significant digits. *)
Definition significand6 (N D X : Z) : Z :=
  if (X <=? 5)%Z then round_half_even (N * 10 ^ (5 - X)) D
  else round_half_even N (D * 10 ^ (X - 5)).

Definition with_point (ip fp : list ascii) : list ascii :=
  match fp with
  | [] => ip
  | _ => ip ++ "."%char :: fp
  end.

Definition exponent_digits (X : Z) : list ascii :=
  let a := Z.abs X in
  (if (X <? 0)%Z then "-"%char else "+"%char)
    :: (if (a <? 100)%Z then digits 2 a else digits 3 a).

(** The positive rational [N / D] in the [%g] style. *)
Definition format_g6 (N D : Z) : list ascii :=
  let X0 := decimal_exponent N D in
  let R0 := significand6 N D X0 in
  let '(R, X) :=
    if (R0 =? 1000000)%Z then (100000, X0 + 1)%Z else (R0, X0) in
  let ds := digits 6 R in
  if ((-4 <=? X) && (X <? 6))%Z then
    if (0 <=? X)%Z then
      with_point (take (Z.to_nat X + 1) ds)
                 (strip_zeros (drop (Z.to_nat X + 1) ds))
    else
      "0"%char :: "."%char
        :: replicate (Z.to_nat (- X - 1)) "0"%char ++ strip_zeros ds
  else
    with_point (take 1 ds) (strip_zeros (drop 1 ds))
      ++ "e"%char :: exponent_digits X.

Definition show_sign (s : bool) : string := if s then "-"%string else EmptyString.

Definition show_float (x : spec_float) : string :=
  match x with
  | S754_zero s => String.append (show_sign s) "0"
  | S754_infinity s => String.append (show_sign s) "inf"
  | S754_nan => "nan"%string
  | S754_finite s m e =>
      String.append (show_sign s)
        (string_of_list_ascii
           (if (0 <=? e)%Z then format_g6 (Z.pos m * 2 ^ e) 1
            else format_g6 (Z.pos m) (2 ^ (- e))))
  end.

(** ** main.cc *)

(** The character ['\n']. *)
Definition newline : string := String (ascii_of_nat 10) EmptyString.

(** [main] returns what it wrote to standard output and its exit code.
    [v1] and [v2] are two objects and [v1 + v2] is [operator+] on them.
    Its result is a temporary object, and [data()] gives a span over the
    elements of that object.  The range-for statement first binds the
    span, [auto &&range = (v1 + v2).data();], and then loops over it;
    each iteration reads an element through the span and sends it and
    then a space to [std::cout].

    The temporary [Vector] is destroyed at the end of the initializer,
    before the first iteration.  Only from C++23 on do the temporaries of
    the initializer live until the loop ends; [extended] selects that
    rule. *)
Definition main_with (extended : bool) : option (string * Z) :=
  let v1 := 0 in
  let v2 := 1 in
  let h : gmap nat (list spec_float) :=
    <[v2 := f32_vector [4; 5; 6]%Z]> (<[v1 := f32_vector [1; 2; 3]%Z]> ∅) in
  '(sum, h) ← op_add v1 v2 h;
  let tmp := fresh (dom h) in
  let h := <[tmp := sum]> h in
  '(ptr, size) ← data tmp h;
  let h := if extended then h else delete tmp h in
  cout ← for_upto size (λ i cout,
            d ← h !! ptr;
            elem ← d !! i;
            Some (String.append (String.append cout (show_float elem)) " "))
          EmptyString;
  let cout := String.append cout newline in
  Some (cout, 0%Z).

(** [main] as the sources are written: they need no more than C++20
    (for [<span>]), where the temporary dies before the loop. *)
Definition main : option (string * Z) := main_with false.

(** * Facts *)

(** ** The float inserter on sample values *)

Example show_float_integers :
  show_float (f32_of_Z 5) = "5"%string
  ∧ show_float (f32_of_Z (-42)) = "-42"%string
  ∧ show_float (f32_of_Z 999999) = "999999"%string
  ∧ show_float (f32_of_Z 1000000) = "1e+06"%string
  ∧ show_float (f32_of_Z 1234567) = "1.23457e+06"%string.
Proof. by vm_compute. Qed.

(** [0.1f], [1.5f], [1.0f / 1024] and the smallest and largest finite
    floats. *)
Example show_float_fractions :
  show_float (S754_finite false 13421773 (-27)) = "0.1"%string
  ∧ show_float (S754_finite false 12582912 (-23)) = "1.5"%string
  ∧ show_float (S754_finite false 8388608 (-33)) = "0.000976562"%string
  ∧ show_float (S754_finite false 1 (-149)) = "1.4013e-45"%string
  ∧ show_float (S754_finite false 16777215 104) = "3.40282e+38"%string.
Proof. by vm_compute. Qed.

(** ** Counted loops *)

Section Loops.
Context {St : Type}.
Implicit Types (body : nat → St → option St) (s : St).

(** A loop whose every step is defined and keeps an invariant is
    defined and ends in the invariant. *)
Lemma for_loop_inv (P : nat → St → Prop) body i c s :
  P i s →
  (∀ k s, i ≤ k < i + c → P k s → ∃ s', body k s = Some s' ∧ P (S k) s') →
  ∃ s', for_loop body i c s = Some s' ∧ P (i + c) s'.
Proof.
  revert i s. induction c as [|c IH]; intros i s Hs Hstep; simpl.
  - exists s. by rewrite Nat.add_0_r.
  - destruct (Hstep i s ltac:(lia) Hs) as (s1 & -> & Hs1). simpl.
    destruct (IH (S i) s1 Hs1) as (s2 & Hrun & Hs2).
    + intros k s' Hk. apply Hstep. lia.
    + exists s2. split; [done|]. by replace (i + S c) with (S i + c) by lia.
Qed.

Lemma for_loop_app body i c1 c2 s :
  for_loop body i (c1 + c2) s
  = for_loop body i c1 s ≫= for_loop body (i + c1) c2.
Proof.
  revert i s. induction c1 as [|c1 IH]; intros i s; simpl.
  - by rewrite Nat.add_0_r.
  - destruct (body i s) as [s1|]; simpl; [|done].
    rewrite IH. by replace (S i + c1) with (i + S c1) by lia.
Qed.

Lemma for_upto_inv (P : nat → St → Prop) body n s :
  P 0 s →
  (∀ k s, k < n → P k s → ∃ s', body k s = Some s' ∧ P (S k) s') →
  ∃ s', for_upto n body s = Some s' ∧ P n s'.
Proof.
  intros Hs Hstep. apply (for_loop_inv P body 0 n s Hs).
  intros k s' Hk. apply Hstep. lia.
Qed.

(** A loop that reaches an undefined step is undefined. *)
Lemma for_upto_undefined (P : nat → St → Prop) body n k s :
  k < n →
  P 0 s →
  (∀ k' s, k' < k → P k' s → ∃ s', body k' s = Some s' ∧ P (S k') s') →
  (∀ s, P k s → body k s = None) →
  for_upto n body s = None.
Proof.
  intros Hk Hs Hstep Hfail. unfold for_upto.
  replace n with (k + S (n - S k)) by lia. rewrite for_loop_app.
  destruct (for_upto_inv P body k s Hs Hstep) as (s1 & Hrun & Hs1).
  unfold for_upto in Hrun. rewrite Hrun. simpl.
  by rewrite (Hfail s1 Hs1).
Qed.
End Loops.

(** ** Matrix access *)

Section MatrixFacts.
Context {T : Type} `{Scalar T}.
Implicit Types (m lhs rhs r : Matrix T) (i j k : nat).

Lemma cell_index_lt i j h w : i < h → j < w → i * w + j < h * w.
Proof. intros. nia. Qed.

Lemma cell_index_inj i j i' j' w :
  j < w → j' < w → i * w + j = i' * w + j' → i = i' ∧ j = j'.
Proof.
  intros Hj Hj' Heq.
  assert (i = i') as ->; [|lia].
  apply (f_equal (λ n, n / w)) in Heq.
  by rewrite !Nat.div_add_l, !Nat.div_small, !Nat.add_0_r in Heq by lia.
Qed.

Lemma in_range_true m i j :
  i < get_height m → j < get_width m → in_range m i j = true.
Proof.
  intros Hi Hj. unfold in_range.
  apply andb_true_intro. split; by apply Nat.ltb_lt.
Qed.

Lemma in_range_false_row m i j : get_height m ≤ i → in_range m i j = false.
Proof.
  intros Hi. unfold in_range.
  by replace (i <? get_height m) with false by (symmetry; by apply Nat.ltb_ge).
Qed.

Lemma get_cell m i j :
  wf m → i < get_height m → j < get_width m →
  get m i j = Some (cell m i j).
Proof.
  intros Hwf Hi Hj. unfold cell, get. rewrite in_range_true by done.
  destruct (lookup_lt_is_Some_2 (cells m) (i * get_width m + j)) as [x ->];
    [|done].
  rewrite Hwf. by apply cell_index_lt.
Qed.

Lemma get_out_of_rows m i j : get_height m ≤ i → get m i j = None.
Proof. intros Hi. unfold get. by rewrite in_range_false_row. Qed.

Lemma wf_Matrix_new h w : wf (Matrix_new (T:=T) h w).
Proof. unfold wf. simpl. by rewrite length_replicate. Qed.

Lemma wf_Matrix_init h w (f : nat → nat → T) : wf (Matrix_init h w f).
Proof. unfold wf. simpl. by rewrite length_fmap, length_seq. Qed.

Lemma get_Matrix_init h w (f : nat → nat → T) i j :
  i < h → j < w → get (Matrix_init h w f) i j = Some (f i j).
Proof.
  intros Hi Hj. unfold get. rewrite in_range_true by done. simpl.
  rewrite list_lookup_fmap, lookup_seq_lt by (by apply cell_index_lt).
  simpl. f_equal. f_equal.
  - rewrite Nat.div_add_l by lia. rewrite Nat.div_small by done. lia.
  - rewrite Nat.add_comm, Nat.Div0.mod_add. by apply Nat.mod_small.
Qed.

Lemma cell_Matrix_init h w (f : nat → nat → T) i j :
  i < h → j < w → cell (Matrix_init h w f) i j = f i j.
Proof. intros. unfold cell. by rewrite get_Matrix_init. Qed.

(** [set] inside the grid is defined, keeps the shape, writes the cell
    and leaves every other cell alone. *)
Lemma set_in_range m i j v :
  wf m → i < get_height m → j < get_width m →
  ∃ m', set m i j v = Some m'
        ∧ wf m'
        ∧ get_height m' = get_height m
        ∧ get_width m' = get_width m
        ∧ get m' i j = Some v
        ∧ ∀ i' j', j' < get_width m → (i', j') ≠ (i, j) →
                   get m' i' j' = get m i' j'.
Proof.
  intros Hwf Hi Hj. unfold set. rewrite in_range_true by done.
  eexists. split; [done|]. unfold wf, get, in_range. simpl.
  rewrite length_insert. repeat split; try done.
  - fold (in_range m i j). rewrite in_range_true by done.
    apply list_lookup_insert_eq. rewrite Hwf. by apply cell_index_lt.
  - intros i' j' Hj' Hne.
    destruct ((i' <? get_height m) && (j' <? get_width m)); [|done].
    apply list_lookup_insert_ne. intros Heq.
    destruct (cell_index_inj i j i' j' (get_width m)) as [-> ->]; done.
Qed.
End MatrixFacts.

(** ** The triple loop of [mul] *)

Section MulFacts.
Context {T : Type} `{Scalar T}.
Implicit Types (lhs rhs r : Matrix T) (i j k : nat).

Lemma dot_S lhs rhs i j k :
  dot lhs rhs i j (S k)
  = s_add (dot lhs rhs i j k) (s_mul (cell lhs i k) (cell rhs k j)).
Proof. unfold dot. by rewrite seq_S, foldl_app. Qed.

(** The innermost loop accumulates the dot product, and reads inside
    both operands as long as [rhs] has at least [lhs.width] rows. *)
Lemma mul_sum_loop lhs rhs i j :
  wf lhs → wf rhs →
  i < get_height lhs → j < get_width rhs →
  get_width lhs ≤ get_height rhs →
  for_upto (get_width lhs) (λ k sum,
    a ← get lhs i k; b ← get rhs k j; Some (s_add sum (s_mul a b))) s_zero
  = Some (dot lhs rhs i j (get_width lhs)).
Proof.
  intros Hl Hr Hi Hj Hk.
  destruct (for_upto_inv (λ k sum, sum = dot lhs rhs i j k)
    (λ k sum, a ← get lhs i k; b ← get rhs k j; Some (s_add sum (s_mul a b)))
    (get_width lhs) s_zero) as (sum & -> & ->); [done| |done].
  intros k sum Hlt ->.
  rewrite (get_cell lhs), (get_cell rhs) by (done || lia). simpl.
  eexists. split; [done|]. by rewrite dot_S.
Qed.

(** With fewer rows in [rhs], the innermost loop reads [rhs] below its
    last row. *)
Lemma mul_sum_loop_undefined lhs rhs i j :
  wf lhs → wf rhs →
  i < get_height lhs → j < get_width rhs →
  get_height rhs < get_width lhs →
  for_upto (get_width lhs) (λ k sum,
    a ← get lhs i k; b ← get rhs k j; Some (s_add sum (s_mul a b))) s_zero
  = None.
Proof.
  intros Hl Hr Hi Hj Hk.
  apply (for_upto_undefined (λ _ _, True) _ _ (get_height rhs)); try done.
  - intros k sum Hlt _.
    rewrite (get_cell lhs), (get_cell rhs) by (done || lia). simpl. eauto.
  - intros sum _. rewrite (get_cell lhs) by (done || lia). simpl.
    by rewrite get_out_of_rows.
Qed.

Lemma filled_next_row lhs rhs r i :
  filled lhs rhs r i (get_width rhs) → filled lhs rhs r (S i) 0.
Proof.
  intros (Hwf & Hh & Hw & Hcells). repeat split; try done.
  intros i' j' Hj' Hlt. apply Hcells; [done|]. lia.
Qed.

(** [mul] is defined whenever [rhs] has at least [lhs.width] rows; the
    result has the shape [lhs.height × rhs.width] and each cell is the
    dot product in loop order. *)
Lemma mul_defined lhs rhs :
  wf lhs → wf rhs → get_width lhs ≤ get_height rhs →
  ∃ r, mul lhs rhs = Some r
       ∧ wf r
       ∧ get_height r = get_height lhs
       ∧ get_width r = get_width rhs
       ∧ ∀ i j, i < get_height lhs → j < get_width rhs →
                get r i j = Some (dot lhs rhs i j (get_width lhs)).
Proof.
  intros Hl Hr Hk. unfold mul.
  edestruct (for_upto_inv (λ i r, filled lhs rhs r i 0)) as (r & -> & Hr');
    last first.
  { exists r. split; [done|]. destruct Hr' as (? & ? & ? & Hcells).
    repeat split; try done. intros i j Hi Hj. apply Hcells; [done|]. lia. }
  - intros i r Hi Hfill.
    edestruct (for_upto_inv (λ j r, filled lhs rhs r i j)) as (r' & -> & Hr');
      last first.
    { exists r'. split; [done|]. by apply filled_next_row. }
    + intros j r0 Hj (Hwf & Hh & Hw & Hcells).
      rewrite mul_sum_loop by done. simpl.
      destruct (set_in_range r0 i j (dot lhs rhs i j (get_width lhs)))
        as (r1 & -> & Hwf1 & Hh1 & Hw1 & Hget & Hother); [done|lia|lia|].
      exists r1. split; [done|]. repeat split; try congruence.
      intros i' j' Hj' Hlt.
      destruct (decide ((i', j') = (i, j))) as [[= -> ->]|Hne]; [done|].
      rewrite Hother by (done || lia). apply Hcells; [done|].
      destruct Hlt as [?|[-> ?]]; [by left|right].
      split; [done|]. assert (j' ≠ j) by congruence. lia.
    + done.
  - repeat split; [apply wf_Matrix_new|]. intros i' j' _ Hlt. lia.
Qed.

(** With fewer rows in [rhs] and a non-empty result, the first cell
    already reads out of range. *)
Lemma mul_undefined lhs rhs :
  wf lhs → wf rhs →
  get_height rhs < get_width lhs →
  0 < get_height lhs → 0 < get_width rhs →
  mul lhs rhs = None.
Proof.
  intros Hl Hr Hk Hm Hn. unfold mul.
  apply (for_upto_undefined (λ _ _, True) _ _ 0); try done; [lia|].
  intros r _.
  apply (for_upto_undefined (λ _ _, True) _ _ 0); try done; [lia|].
  intros r' _. by rewrite mul_sum_loop_undefined.
Qed.
End MulFacts.

(** ** Vector addition *)

Section VectorFacts.
Context {T : Type} `{Scalar T}.
Implicit Types (d r a b : list T) (h : gmap nat (list T)).

Lemma partial_sum_0 d r : partial_sum d r 0 = d.
Proof. done. Qed.

Lemma partial_sum_all d r :
  length d ≤ length r → partial_sum d r (length d) = zip_with s_add d r.
Proof.
  intros Hlen. unfold partial_sum.
  rewrite take_ge, drop_ge, app_nil_r; [done|done|].
  by rewrite length_zip_with_l.
Qed.

Lemma partial_sum_lookup d r i :
  i ≤ length d → i ≤ length r → partial_sum d r i !! i = d !! i.
Proof.
  intros Hd Hr. unfold partial_sum.
  rewrite lookup_app_r; rewrite length_take, length_zip_with; [|lia].
  rewrite lookup_drop. f_equal. lia.
Qed.

Lemma partial_sum_S d r i x y :
  d !! i = Some x → r !! i = Some y →
  <[i := s_add x y]> (partial_sum d r i) = partial_sum d r (S i).
Proof.
  intros Hx Hy. unfold partial_sum.
  assert (zip_with s_add d r !! i = Some (s_add x y)) as Hz.
  { by rewrite lookup_zip_with, Hx, Hy. }
  pose proof (lookup_lt_Some _ _ _ Hz) as Hlt.
  rewrite insert_app_r_alt; rewrite length_take; [|lia].
  replace (i - i `min` length (zip_with s_add d r)) with 0 by lia.
  rewrite (drop_S _ _ _ Hx), (take_S_r _ _ _ Hz). simpl.
  by rewrite <- app_assoc.
Qed.

(** One iteration of [data_[i] += rhs.data_[i]].  [this] and [rhs] may
    be the same object: the element read through [rhs] at [i] is then
    the one not yet overwritten. *)
Lemma op_add_assign_step this rhs h d r i x y :
  h !! this = Some d → h !! rhs = Some r →
  d !! i = Some x → r !! i = Some y →
  let h' := <[this := partial_sum d r i]> h in
  (d' ← h' !! this; r' ← h' !! rhs; x ← d' !! i; y ← r' !! i;
   Some (<[this := <[i := s_add x y]> d']> h'))
  = Some (<[this := partial_sum d r (S i)]> h).
Proof.
  intros Hd Hr Hx Hy h'. subst h'. rewrite lookup_insert_eq. simpl.
  pose proof (lookup_lt_Some _ _ _ Hx). pose proof (lookup_lt_Some _ _ _ Hy).
  destruct (decide (this = rhs)) as [<-|Hne].
  - assert (r = d) as -> by congruence.
    rewrite lookup_insert_eq. simpl.
    rewrite partial_sum_lookup, Hx by lia. simpl.
    by rewrite insert_insert_eq, partial_sum_S.
  - rewrite lookup_insert_ne, Hr by done. simpl.
    rewrite partial_sum_lookup, Hx by lia. simpl. rewrite Hy. simpl.
    by rewrite insert_insert_eq, partial_sum_S.
Qed.

(** [a += b] with [b] at least as long as [a]: defined, the receiver
    holds the elementwise sum, every other object is unchanged, and the
    reference returned is the receiver. *)
Lemma op_add_assign_defined this rhs h d r :
  h !! this = Some d → h !! rhs = Some r → length d ≤ length r →
  op_add_assign this rhs h = Some (this, <[this := zip_with s_add d r]> h).
Proof.
  intros Hd Hr Hlen. unfold op_add_assign. rewrite Hd. simpl.
  edestruct (for_upto_inv (λ i h', h' = <[this := partial_sum d r i]> h))
    as (h1 & -> & ->); last first.
  { simpl. by rewrite partial_sum_all. }
  - intros i h' Hi ->.
    destruct (lookup_lt_is_Some_2 d i) as [x Hx]; [done|].
    destruct (lookup_lt_is_Some_2 r i) as [y Hy]; [lia|].
    eexists. split; [|done]. by eapply op_add_assign_step.
  - rewrite partial_sum_0. by rewrite insert_id.
Qed.

(** [a += b] with [b] shorter than [a] reads [b] past its end. *)
Lemma op_add_assign_undefined this rhs h d r :
  h !! this = Some d → h !! rhs = Some r → length r < length d →
  op_add_assign this rhs h = None.
Proof.
  intros Hd Hr Hlen. unfold op_add_assign. rewrite Hd. simpl.
  erewrite (for_upto_undefined
              (λ i h', h' = <[this := partial_sum d r i]> h)
              _ _ (length r)); [done|done| | |].
  - rewrite partial_sum_0. by rewrite insert_id.
  - intros i h' Hi ->.
    destruct (lookup_lt_is_Some_2 d i) as [x Hx]; [lia|].
    destruct (lookup_lt_is_Some_2 r i) as [y Hy]; [done|].
    eexists. split; [|done]. by eapply op_add_assign_step.
  - intros h' ->. rewrite lookup_insert_eq. simpl.
    assert (this ≠ rhs) as Hne by (intros <-; simplify_eq; lia).
    rewrite lookup_insert_ne, Hr by done. simpl.
    rewrite partial_sum_lookup by lia.
    destruct (lookup_lt_is_Some_2 d (length r)) as [x ->]; [done|]. simpl.
    by rewrite lookup_ge_None_2.
Qed.

Lemma fresh_lookup h : h !! fresh (dom h) = None.
Proof. apply not_elem_of_dom, is_fresh. Qed.

(** [a + b]: the sum is returned by value and the store is as before. *)
Lemma op_add_defined (this rhs : nat) h a b :
  h !! this = Some a → h !! rhs = Some b → length a ≤ length b →
  op_add this rhs h = Some (zip_with s_add a b, h).
Proof.
  intros Ha Hb Hlen. unfold op_add. rewrite Ha. simpl.
  pose proof (fresh_lookup h) as Hfresh.
  assert (fresh (dom h) ≠ rhs) as Hne by (intros Heq; congruence).
  rewrite (op_add_assign_defined _ _ _ a b);
    [|by rewrite lookup_insert_eq|by rewrite lookup_insert_ne|done].
  simpl. rewrite lookup_insert_eq. simpl.
  by rewrite !delete_insert_eq, delete_id.
Qed.

Lemma op_add_undefined (this rhs : nat) h a b :
  h !! this = Some a → h !! rhs = Some b → length b < length a →
  op_add this rhs h = None.
Proof.
  intros Ha Hb Hlen. unfold op_add. rewrite Ha. simpl.
  pose proof (fresh_lookup h) as Hfresh.
  assert (fresh (dom h) ≠ rhs) as Hne by (intros Heq; congruence).
  by rewrite (op_add_assign_undefined _ _ _ a b);
    [|by rewrite lookup_insert_eq|by rewrite lookup_insert_ne|done].
Qed.

Lemma add_defined a b :
  length a ≤ length b → add a b = Some (zip_with s_add a b).
Proof.
  intros Hlen. unfold add. by rewrite (op_add_defined 0 1 _ a b).
Qed.

Lemma add_undefined a b : length b < length a → add a b = None.
Proof.
  intros Hlen. unfold add. by rewrite (op_add_undefined 0 1 _ a b).
Qed.
End VectorFacts.

(** ** binary32 arithmetic *)

Lemma f32_add_comm (x y : spec_float) : s_add x y = s_add y x.
Proof.
  destruct x as [[]|[]| |sx mx ex], y as [[]|[]| |sy my ey]; try reflexivity.
  simpl. unfold SFadd. by rewrite Z.min_comm, Z.add_comm.
Qed.

Lemma f32_add_zero_l (x : spec_float) :
  finite x = true → x ≠ S754_zero true → s_add s_zero x = x.
Proof. by destruct x as [[]|[]| |sx mx ex]. Qed.

(** [+0 + x] is [x] with a zero made positive: the value the loop of
    [mul] reaches when [x] is the only non-zero term. *)
Lemma f32_add_zero_idem (x : spec_float) :
  s_add (s_add s_zero x) (S754_zero false) = s_add s_zero x
  ∧ s_add (s_add s_zero x) (S754_zero true) = s_add s_zero x.
Proof. by destruct x as [[]|[]| |sx mx ex]. Qed.

Lemma f32_mul_zero_r (x : spec_float) :
  finite x = true →
  s_mul x (S754_zero false) = S754_zero false
  ∨ s_mul x (S754_zero false) = S754_zero true.
Proof. destruct x as [[]|[]| |[] mx ex]; intros Hf; try done; simpl; auto. Qed.

Lemma digits2_shift23 (m : positive) :
  Z.pos (digits2_pos (m * 8388608)) = (Z.pos (digits2_pos m) + 23)%Z.
Proof.
  rewrite !Pos.mul_xO_r, Pos.mul_1_r. cbn [digits2_pos].
  rewrite !Pos2Z.inj_succ. lia.
Qed.

(** [x * 1.0f] is [x] for every finite float: the product of the
    mantissas is shifted back by the 23 bits of the mantissa of one, with
    nothing to round. *)
Lemma f32_mul_one_finite s m e :
  bounded prec emax m e = true →
  SFmul prec emax (S754_finite s m e) (f32_of_Z 1) = S754_finite s m e.
Proof.
  intros Hb. apply andb_prop in Hb as [Hcan Hle].
  unfold canonical_mantissa in Hcan. apply Z.eqb_eq in Hcan.
  change (f32_of_Z 1) with (S754_finite false 8388608 (-23)).
  unfold SFmul, binary_round_aux.
  unfold shr_fexp at 1. unfold Zdigits2.
  rewrite digits2_shift23.
  replace (Z.pos (digits2_pos m) + 23 + (e + -23))%Z
    with (Z.pos (digits2_pos m) + e)%Z by lia.
  rewrite Hcan.
  replace (e - (e + -23))%Z with 23%Z by lia.
  rewrite !Pos.mul_xO_r, Pos.mul_1_r.
  cbn [shr shr_record_of_loc SpecFloat.iter_pos shr_1 orb].
  cbn [round_nearest_even loc_of_shr_record shr_m].
  unfold shr_fexp, Zdigits2. replace (e + -23 + 23)%Z with e by lia.
  rewrite Hcan, Z.sub_diag. cbn [shr shr_record_of_loc shr_m].
  rewrite Hle. by destruct s.
Qed.

Lemma f32_mul_one (x : spec_float) :
  finite_float x → s_mul x (f32_of_Z 1) = x.
Proof.
  intros [Hv Hf]. destruct x as [[]|[]| |s m e]; try done.
  by apply f32_mul_one_finite.
Qed.

Lemma f32_add_zero_positive (x : spec_float) :
  s_add s_zero x = positive_zero x.
Proof. by destruct x as [[]|[]| |s m e]. Qed.

Lemma f32_eqb_add_zero (x : spec_float) :
  finite x = true → f32_eqb (s_add s_zero x) x = true.
Proof.
  destruct x as [[]|[]| |s m e]; try done. intros _. simpl.
  unfold f32_eqb, SFeqb, SFcompare.
  rewrite Z.compare_refl, Pos.compare_cont_refl. by destruct s.
Qed.

(** ** Matrices with the same cells are the same *)

Section MatrixExt.
Context {T : Type} `{Scalar T}.
Implicit Types (m r : Matrix T).

Lemma get_lookup m p :
  p < get_height m * get_width m →
  get m (p / get_width m) (p mod get_width m) = cells m !! p.
Proof.
  intros Hp. assert (0 < get_width m) as Hw by nia.
  unfold get. rewrite in_range_true.
  - f_equal. rewrite Nat.mul_comm. symmetry. apply Nat.div_mod_eq.
  - apply Nat.Div0.div_lt_upper_bound. lia.
  - apply Nat.mod_upper_bound. lia.
Qed.

Lemma matrix_ext m r :
  wf m → wf r →
  get_height m = get_height r → get_width m = get_width r →
  (∀ i j, i < get_height m → j < get_width m → get m i j = get r i j) →
  m = r.
Proof.
  intros Hm Hr Hh Hw Hget.
  assert (cells m = cells r) as Hcells.
  { apply list_eq. intros p.
    destruct (decide (p < get_height m * get_width m)) as [Hp|Hp].
    - rewrite <- (get_lookup m p) by done.
      rewrite <- (get_lookup r p) by congruence.
      rewrite <- Hw. apply Hget.
      + apply Nat.Div0.div_lt_upper_bound. lia.
      + apply Nat.mod_upper_bound. nia.
    - rewrite !lookup_ge_None_2; [done| |]; unfold wf in *; lia. }
  destruct m, r. simpl in *. congruence.
Qed.

Lemma cell_all_cells (P : T → Prop) m i j :
  wf m → all_cells P m → i < get_height m → j < get_width m →
  P (cell m i j).
Proof.
  intros Hwf Hall Hi Hj.
  pose proof (get_cell m i j Hwf Hi Hj) as Hget. unfold get in Hget.
  rewrite in_range_true in Hget by done.
  by eapply Forall_lookup_1.
Qed.

(** When the result has no cell, no loop of [mul] reaches the reads. *)
Lemma mul_empty (lhs rhs : Matrix T) :
  get_height lhs = 0 ∨ get_width rhs = 0 →
  mul lhs rhs = Some (Matrix_new (get_height lhs) (get_width rhs)).
Proof.
  intros [Hm|Hn]; unfold mul.
  - by rewrite Hm.
  - rewrite Hn.
    edestruct (for_upto_inv (λ _ r, r = Matrix_new (get_height lhs) 0))
      as (r & -> & ->); [done| |done].
    intros i r _ ->. by eexists.
Qed.
End MatrixExt.

(** ** Products with the zero and the identity matrix *)

Section SpecialProducts.
Implicit Types (A : Matrix spec_float) (i j k n : nat).

Lemma dot_zeros A n i j k :
  wf A → all_cells (λ x, finite x = true) A →
  i < get_height A → j < n → k ≤ get_width A →
  dot A (zeros (get_width A) n) i j k = S754_zero false.
Proof.
  intros Hwf Hfin Hi Hj. induction k as [|k IH]; intros Hk; [done|].
  rewrite dot_S, IH by lia.
  unfold zeros. rewrite cell_Matrix_init by lia.
  pose proof (cell_all_cells (λ x, finite x = true) A i k) as Hf.
  by destruct (f32_mul_zero_r (cell A i k)) as [-> | ->]; [auto with lia|..].
Qed.

Lemma dot_identity A i j k :
  wf A → all_cells finite_float A →
  i < get_height A → j < get_width A → k ≤ get_width A →
  dot A (identity (get_width A)) i j k
  = if decide (k ≤ j) then S754_zero false
    else s_add s_zero (cell A i j).
Proof.
  intros Hwf Hfin Hi Hj. induction k as [|k IH]; intros Hk; [done|].
  rewrite dot_S, IH by lia.
  unfold identity. rewrite cell_Matrix_init by lia.
  pose proof (cell_all_cells finite_float A i k Hwf Hfin Hi ltac:(lia))
    as Hcell.
  destruct (Nat.eqb_spec k j) as [->|Hne].
  - rewrite f32_mul_one by done. by repeat case_decide; try lia.
  - destruct Hcell as [_ Hf].
    pose proof (f32_add_zero_idem (cell A i j)) as [Hp Hn].
    repeat case_decide; try lia;
      by destruct (f32_mul_zero_r _ Hf) as [-> | ->].
Qed.
End SpecialProducts.

(** ** The product in exact arithmetic *)

Section ExactProduct.
Implicit Types (A B C : Matrix Z) (f g : nat → Z) (i j k n : nat).
Local Open Scope Z_scope.

Lemma Zsum_S f n : Zsum f (S n) = Zsum f n + f n.
Proof. unfold Zsum. by rewrite seq_S, foldl_app. Qed.

Lemma Zsum_ext f g n :
  (∀ k, (k < n)%nat → f k = g k) → Zsum f n = Zsum g n.
Proof.
  induction n as [|n IH]; intros Hfg; [done|].
  rewrite !Zsum_S, IH, Hfg; [done|lia|]. intros k Hk. apply Hfg. lia.
Qed.

Lemma Zsum_add f g n : Zsum (λ k, f k + g k) n = Zsum f n + Zsum g n.
Proof. induction n as [|n IH]; [done|]. rewrite !Zsum_S, IH. lia. Qed.

Lemma Zsum_mul_r f c n : Zsum f n * c = Zsum (λ k, f k * c) n.
Proof. induction n as [|n IH]; [done|]. rewrite !Zsum_S, <- IH. lia. Qed.

Lemma Zsum_mul_l f c n : c * Zsum f n = Zsum (λ k, c * f k) n.
Proof.
  induction n as [|n IH]; [unfold Zsum; simpl; lia|].
  rewrite !Zsum_S, <- IH. lia.
Qed.

Lemma Zsum_swap (h : nat → nat → Z) k n :
  Zsum (λ l, Zsum (λ k2, h k2 l) k) n = Zsum (λ k2, Zsum (λ l, h k2 l) n) k.
Proof.
  induction n as [|n IH].
  - induction k as [|k IHk]; [done|]. rewrite Zsum_S, <- IHk. done.
  - rewrite Zsum_S, IH, <- Zsum_add. apply Zsum_ext. intros k2 _.
    by rewrite Zsum_S.
Qed.

Lemma dot_Zsum A B i j k :
  dot A B i j k = Zsum (λ k2, cell A i k2 * cell B k2 j) k.
Proof. done. Qed.

Lemma mul_cell A B r i j :
  mul A B = Some r →
  wf A → wf B → get_width A = get_height B →
  (i < get_height A)%nat → (j < get_width B)%nat →
  cell r i j = dot A B i j (get_width A).
Proof.
  intros Hmul HA HB Hk Hi Hj.
  destruct (mul_defined A B) as (r' & Hr' & _ & _ & _ & Hcells);
    [done|done|lia|].
  assert (r' = r) as -> by congruence.
  unfold cell. by rewrite Hcells.
Qed.

(** Exact sums and products: both bracketings give the same cells. *)
Lemma dot_assoc A B C AB BC i j :
  wf A → wf B → wf C →
  get_width A = get_height B → get_width B = get_height C →
  mul A B = Some AB → mul B C = Some BC →
  (i < get_height A)%nat → (j < get_width C)%nat →
  dot AB C i j (get_width B) = dot A BC i j (get_width A).
Proof.
  intros HA HB HC Hk Hn HAB HBC Hi Hj. rewrite !dot_Zsum.
  rewrite (Zsum_ext _ (λ l,
    Zsum (λ k2, cell A i k2 * cell B k2 l * cell C l j) (get_width A))).
  2:{ intros l Hl. rewrite (mul_cell A B AB i l) by done.
      by rewrite dot_Zsum, Zsum_mul_r. }
  rewrite Zsum_swap. apply Zsum_ext. intros k2 Hk2.
  rewrite (mul_cell B C BC k2 j) by (done || lia).
  rewrite dot_Zsum, Zsum_mul_l. apply Zsum_ext. intros l _. lia.
Qed.

Lemma mul_assoc_exact A B C :
  wf A → wf B → wf C →
  get_width A = get_height B → get_width B = get_height C →
  ∃ r, (AB ← mul A B; mul AB C) = Some r
       ∧ (BC ← mul B C; mul A BC) = Some r.
Proof.
  intros HA HB HC Hk Hn.
  destruct (mul_defined A B) as (AB & HAB & HwAB & HhAB & HwdAB & _);
    [done|done|lia|].
  destruct (mul_defined B C) as (BC & HBC & HwBC & HhBC & HwdBC & _);
    [done|done|lia|].
  destruct (mul_defined AB C) as (l & Hl & Hwl & Hhl & Hwdl & Hcl);
    [done|done|lia|].
  destruct (mul_defined A BC) as (r & Hr & Hwr & Hhr & Hwdr & Hcr);
    [done|done|lia|].
  exists r. rewrite HAB, HBC. simpl. split; [|done].
  rewrite Hl. f_equal. apply matrix_ext; try done; try congruence.
  intros i j Hi Hj. rewrite Hcl, Hcr by lia. f_equal.
  rewrite HwdAB. apply dot_assoc; try done; lia.
Qed.
End ExactProduct.

(** ** binary32 arithmetic on small integers is exact *)

Section ExactFloats.
Local Open Scope Z_scope.

Lemma shift_S p n : shift p (S n) = (shift p n)~0%positive.
Proof. done. Qed.

Lemma shift_add p n t : shift (shift p n) t = shift p (t + n).
Proof. unfold shift. by rewrite Nat.iter_add. Qed.

Lemma shift_Z p n : Z.pos (shift p n) = Z.pos p * 2 ^ Z.of_nat n.
Proof.
  induction n as [|n IH]; [simpl; lia|].
  rewrite shift_S, Pos2Z.inj_xO, IH, Nat2Z.inj_succ, Z.pow_succ_r by lia. lia.
Qed.

Lemma digits_shift p n :
  Z.pos (digits2_pos (shift p n)) = Z.pos (digits2_pos p) + Z.of_nat n.
Proof.
  induction n as [|n IH]; [simpl; lia|].
  rewrite shift_S. cbn [digits2_pos]. rewrite Pos2Z.inj_succ, IH. lia.
Qed.

Lemma Pos_iter_shift p q : Pos.iter xO p q = shift p (Pos.to_nat q).
Proof. apply Pos2Nat.inj_iter. Qed.

Lemma iter_pos_nat {A} (f : A → A) p x :
  SpecFloat.iter_pos f p x = Nat.iter (Pos.to_nat p) f x.
Proof.
  revert x. induction p as [p IH|p IH|]; intros x; cbn [SpecFloat.iter_pos].
  - rewrite !IH, Pos2Nat.inj_xI, <- Nat.iter_succ_r, <- Nat.iter_add.
    f_equal. lia.
  - rewrite !IH, Pos2Nat.inj_xO, <- Nat.iter_add. f_equal. lia.
  - done.
Qed.

Lemma shr_shift p n :
  Nat.iter n shr_1 {| shr_m := Z.pos (shift p n); shr_r := false; shr_s := false |}
  = {| shr_m := Z.pos p; shr_r := false; shr_s := false |}.
Proof.
  induction n as [|n IH]; [done|].
  by rewrite Nat.iter_succ_r, shift_S.
Qed.

Lemma digits_bounds p :
  2 ^ (Z.pos (digits2_pos p) - 1) ≤ Z.pos p < 2 ^ Z.pos (digits2_pos p).
Proof.
  induction p as [p IH|p IH|]; cbn [digits2_pos]; [| |simpl; lia].
  - rewrite Pos2Z.inj_succ, (Pos2Z.inj_xI p).
    replace (Z.succ (Z.pos (digits2_pos p)) - 1) with (Z.succ (Z.pos (digits2_pos p) - 1)) by lia.
    rewrite !Z.pow_succ_r by lia. lia.
  - rewrite Pos2Z.inj_succ, (Pos2Z.inj_xO p).
    replace (Z.succ (Z.pos (digits2_pos p)) - 1) with (Z.succ (Z.pos (digits2_pos p) - 1)) by lia.
    rewrite !Z.pow_succ_r by lia. lia.
Qed.

Lemma digits_le p n : 0 ≤ n → Z.pos p < 2 ^ n → Z.pos (digits2_pos p) ≤ n.
Proof.
  intros Hn Hp. pose proof (digits_bounds p) as [Hlo _].
  destruct (decide (Z.pos (digits2_pos p) ≤ n)) as [|Hgt]; [done|].
  assert (2 ^ n ≤ 2 ^ (Z.pos (digits2_pos p) - 1)) by (apply Z.pow_le_mono_r; lia).
  lia.
Qed.

Lemma digits_ge p n : 0 ≤ n → 2 ^ n ≤ Z.pos p → n < Z.pos (digits2_pos p).
Proof.
  intros Hn Hp. pose proof (digits_bounds p) as [_ Hhi].
  destruct (decide (n < Z.pos (digits2_pos p))) as [|Hgt]; [done|].
  assert (2 ^ Z.pos (digits2_pos p) ≤ 2 ^ n) by (apply Z.pow_le_mono_r; lia).
  lia.
Qed.

(** Rounding a mantissa that carries [t] spare low zero bits shifts them
    out, and nothing is lost. *)
Lemma round_aux_shift s p t e :
  bounded prec emax p (e + Z.of_nat t) = true →
  binary_round_aux prec emax s (Z.pos (shift p t)) e loc_Exact
  = S754_finite s p (e + Z.of_nat t).
Proof.
  intros Hb. apply andb_prop in Hb as [Hcan Hle].
  unfold canonical_mantissa in Hcan. apply Z.eqb_eq in Hcan.
  unfold binary_round_aux, shr_fexp at 1. unfold Zdigits2.
  rewrite digits_shift.
  replace (Z.pos (digits2_pos p) + Z.of_nat t + e)
    with (Z.pos (digits2_pos p) + (e + Z.of_nat t)) by lia.
  rewrite Hcan. replace (e + Z.of_nat t - e) with (Z.of_nat t) by lia.
  assert (shr (shr_record_of_loc (Z.pos (shift p t)) loc_Exact) e (Z.of_nat t)
          = ({| shr_m := Z.pos p; shr_r := false; shr_s := false |}, e + Z.of_nat t))
    as ->.
  { destruct t as [|t].
    - simpl. f_equal. lia.
    - unfold shr. cbn [shr_record_of_loc].
      destruct (Z.of_nat (S t)) as [|k|k] eqn:Hk; try lia.
      rewrite iter_pos_nat. replace (Pos.to_nat k) with (S t) by lia.
      by rewrite shr_shift. }
  cbn [round_nearest_even loc_of_shr_record shr_m].
  unfold shr_fexp, Zdigits2. rewrite Hcan, Z.sub_diag.
  cbn [shr shr_record_of_loc shr_m]. by rewrite Hle.
Qed.

Lemma fexp_small e : -125 ≤ e → fexp prec emax e = e - 24.
Proof. intros. unfold fexp, emin, prec, emax. lia. Qed.

Lemma canon_bounded p :
  Z.pos (digits2_pos p) ≤ 24 →
  let n := (24 - Pos.to_nat (digits2_pos p))%nat in
  bounded prec emax (shift p n) (- Z.of_nat n) = true.
Proof.
  intros Hd n. unfold bounded, canonical_mantissa.
  rewrite digits_shift, fexp_small by lia.
  apply andb_true_intro. split; [apply Z.eqb_eq|apply Z.leb_le]; unfold prec, emax; lia.
Qed.

Lemma round_aux_canon s p t :
  Z.pos (digits2_pos p) ≤ 24 →
  (24 - Pos.to_nat (digits2_pos p) ≤ t)%nat →
  binary_round_aux prec emax s (Z.pos (shift p t)) (- Z.of_nat t) loc_Exact
  = f32_canon s p.
Proof.
  intros Hd Ht. unfold f32_canon.
  set (n := (24 - Pos.to_nat (digits2_pos p))%nat) in *.
  replace t with ((t - n) + n)%nat at 1 by lia.
  rewrite <- shift_add, round_aux_shift.
  - f_equal. lia.
  - replace (- Z.of_nat t + Z.of_nat (t - n)) with (- Z.of_nat n) by lia.
    by apply canon_bounded.
Qed.

Lemma round_canon s p t :
  Z.pos (digits2_pos p) ≤ 24 →
  binary_round prec emax s (shift p t) (- Z.of_nat t) = f32_canon s p.
Proof.
  intros Hd. unfold binary_round. rewrite digits_shift, fexp_small by lia.
  unfold shl_align.
  destruct (Z.pos (digits2_pos p) + Z.of_nat t + - Z.of_nat t - 24 - - Z.of_nat t)
    as [|k|k] eqn:Hk.
  - apply round_aux_canon; [done|lia].
  - apply round_aux_canon; [done|lia].
  - rewrite Pos_iter_shift, shift_add.
    replace (Z.pos (digits2_pos p) + Z.of_nat t + - Z.of_nat t - 24)
      with (- Z.of_nat (Pos.to_nat k + t)) by lia.
    apply round_aux_canon; [done|lia].
Qed.

Lemma f32_of_Z_int z : Z.abs z < 2 ^ 24 → f32_of_Z z = f32_int z.
Proof.
  intros Hz. destruct z as [|p|p]; [done| |];
    apply (round_canon _ p 0), digits_le; lia.
Qed.

Lemma shift_mul a b n m :
  (shift a n * shift b m)%positive = shift (a * b) (n + m).
Proof.
  apply Pos2Z.inj. rewrite Pos2Z.inj_mul, !shift_Z, Pos2Z.inj_mul.
  rewrite Nat2Z.inj_add, Z.pow_add_r by lia. lia.
Qed.

Lemma digits_mul a b :
  Z.pos (digits2_pos a) + Z.pos (digits2_pos b) - 1
  ≤ Z.pos (digits2_pos (a * b)).
Proof.
  pose proof (digits_bounds a) as [Ha _]. pose proof (digits_bounds b) as [Hb _].
  assert (2 ^ (Z.pos (digits2_pos a) + Z.pos (digits2_pos b) - 2) ≤ Z.pos (a * b)).
  { replace (Z.pos (digits2_pos a) + Z.pos (digits2_pos b) - 2)
      with ((Z.pos (digits2_pos a) - 1) + (Z.pos (digits2_pos b) - 1)) by lia.
    rewrite Z.pow_add_r, Pos2Z.inj_mul by lia.
    apply Z.mul_le_mono_nonneg; try done; apply Z.pow_nonneg; lia. }
  pose proof (digits_ge (a * b) (Z.pos (digits2_pos a) + Z.pos (digits2_pos b) - 2)).
  lia.
Qed.

Lemma canon_mul sa sb a b :
  Z.pos (a * b) < 2 ^ 24 →
  SFmul prec emax (f32_canon sa a) (f32_canon sb b)
  = f32_canon (xorb sa sb) (a * b).
Proof.
  intros Hab.
  assert (Z.pos (digits2_pos a) ≤ 24) by (apply digits_le; nia).
  assert (Z.pos (digits2_pos b) ≤ 24) by (apply digits_le; nia).
  assert (Z.pos (digits2_pos (a * b)) ≤ 24) by (apply digits_le; lia).
  pose proof (digits_mul a b).
  unfold f32_canon at 1 2. unfold SFmul. rewrite shift_mul.
  rewrite <- Z.opp_add_distr, <- Nat2Z.inj_add.
  apply round_aux_canon; [done|lia].
Qed.

Lemma shl_align_shift p n t :
  (n ≤ t)%nat →
  fst (shl_align (shift p n) (- Z.of_nat n) (- Z.of_nat t)) = shift p t.
Proof.
  intros Hnt. unfold shl_align.
  destruct (- Z.of_nat t - - Z.of_nat n) as [|k|k] eqn:Hk; simpl.
  - f_equal. lia.
  - lia.
  - rewrite Pos_iter_shift, shift_add. f_equal. lia.
Qed.

Lemma normalize_shift z t :
  Z.abs z < 2 ^ 24 →
  binary_normalize prec emax (z * 2 ^ Z.of_nat t) (- Z.of_nat t) false
  = f32_int z.
Proof.
  intros Hz. destruct z as [|p|p].
  - done.
  - rewrite <- shift_Z. apply round_canon, digits_le; lia.
  - change (Z.neg p) with (- Z.pos p). rewrite Z.mul_opp_l, <- shift_Z.
    apply round_canon, digits_le; lia.
Qed.

Lemma canon_add sa sb a b :
  Z.pos a < 2 ^ 24 → Z.pos b < 2 ^ 24 →
  Z.abs (cond_Zopp sa (Z.pos a) + cond_Zopp sb (Z.pos b)) < 2 ^ 24 →
  SFadd prec emax (f32_canon sa a) (f32_canon sb b)
  = f32_int (cond_Zopp sa (Z.pos a) + cond_Zopp sb (Z.pos b)).
Proof.
  intros Ha Hb Hz.
  assert (Z.pos (digits2_pos a) ≤ 24) by (apply digits_le; lia).
  assert (Z.pos (digits2_pos b) ≤ 24) by (apply digits_le; lia).
  unfold f32_canon. unfold SFadd.
  set (na := (24 - Pos.to_nat (digits2_pos a))%nat).
  set (nb := (24 - Pos.to_nat (digits2_pos b))%nat).
  replace (Z.min (- Z.of_nat na) (- Z.of_nat nb))
    with (- Z.of_nat (na `max` nb)) by lia.
  rewrite !shl_align_shift by lia. rewrite !shift_Z.
  rewrite <- normalize_shift with (t := (na `max` nb)%nat) by done.
  f_equal. destruct sa, sb; simpl; lia.
Qed.

Lemma f32_int_add x y :
  Z.abs x < 2 ^ 24 → Z.abs y < 2 ^ 24 → Z.abs (x + y) < 2 ^ 24 →
  SFadd prec emax (f32_int x) (f32_int y) = f32_int (x + y).
Proof.
  intros Hx Hy Hxy.
  destruct x as [|a|a], y as [|b|b]; try done.
  - apply (canon_add false false a b); simpl; lia.
  - apply (canon_add false true a b); simpl; lia.
  - apply (canon_add true false a b); simpl; lia.
  - apply (canon_add true true a b); simpl; lia.
Qed.

Lemma f32_int_mul x y :
  x ≠ 0 → y ≠ 0 → Z.abs (x * y) < 2 ^ 24 →
  SFmul prec emax (f32_int x) (f32_int y) = f32_int (x * y).
Proof.
  intros Hx Hy Hxy.
  destruct x as [|a|a], y as [|b|b]; try done; simpl in Hxy;
    by apply canon_mul.
Qed.

Lemma f32_int_step s a b :
  Z.abs s < 2 ^ 24 → Z.abs a < 2 ^ 24 → Z.abs b < 2 ^ 24 →
  Z.abs (a * b) < 2 ^ 24 → Z.abs (s + a * b) < 2 ^ 24 →
  SFadd prec emax (f32_int s) (SFmul prec emax (f32_int a) (f32_int b))
  = f32_int (s + a * b).
Proof.
  intros Hs Ha Hb Hab Hsab.
  destruct (decide (a = 0)) as [->|Hna].
  { rewrite Z.mul_0_l, Z.add_0_r.
    destruct s as [|p|p], b as [|q|q]; done. }
  destruct (decide (b = 0)) as [->|Hnb].
  { rewrite Z.mul_0_r, Z.add_0_r.
    destruct s as [|p|p], a as [|q|q]; done. }
  rewrite f32_int_mul by done. by apply f32_int_add.
Qed.
End ExactFloats.

(** ** The float product of small integer matrices is the exact product *)

Section ExactMatrixProduct.
Implicit Types (A B C : Matrix Z) (i j k : nat).
Local Open Scope Z_scope.

Lemma get_Matrix_map {T U : Type} `{Scalar T, Scalar U}
    (f : T → U) (m : Matrix T) i j :
  get (Matrix_map f m) i j = f <$> get m i j.
Proof.
  unfold get, in_range. simpl.
  destruct ((i <? get_height m)%nat && (j <? get_width m)%nat); [|done].
  apply list_lookup_fmap.
Qed.

Lemma wf_Matrix_map {T U : Type} `{Scalar T, Scalar U}
    (f : T → U) (m : Matrix T) :
  wf m → wf (Matrix_map f m).
Proof. unfold wf. simpl. by rewrite length_fmap. Qed.

Lemma cell_f32_of_Zmatrix A i j :
  cell (f32_of_Zmatrix A) i j = f32_of_Z (cell A i j).
Proof.
  unfold cell, f32_of_Zmatrix. rewrite get_Matrix_map.
  by destruct (get A i j).
Qed.

Lemma all_cells_get {T : Type} `{Scalar T} (P : T → Prop) (m : Matrix T) :
  wf m →
  (∀ i j x, (i < get_height m)%nat → (j < get_width m)%nat →
            get m i j = Some x → P x) →
  all_cells P m.
Proof.
  intros Hwf Hget. apply Forall_lookup_2. intros p x Hp.
  pose proof (lookup_lt_Some _ _ _ Hp) as Hlt. rewrite Hwf in Hlt.
  apply (Hget (p / get_width m)%nat (p mod get_width m)%nat).
  - apply Nat.Div0.div_lt_upper_bound. lia.
  - apply Nat.mod_upper_bound. nia.
  - by rewrite get_lookup.
Qed.

(** As long as every product and every partial sum stays below [2^24],
    the float accumulation is the exact one. *)
Lemma dot_exact A B i j k (P : Z) :
  0 ≤ P → P < 2 ^ 24 → Z.of_nat k * P < 2 ^ 24 →
  (∀ k2, (k2 < k)%nat →
     Z.abs (cell A i k2) < 2 ^ 24
     ∧ Z.abs (cell B k2 j) < 2 ^ 24
     ∧ Z.abs (cell A i k2 * cell B k2 j) ≤ P) →
  dot (f32_of_Zmatrix A) (f32_of_Zmatrix B) i j k = f32_of_Z (dot A B i j k)
  ∧ Z.abs (dot A B i j k) ≤ Z.of_nat k * P.
Proof.
  intros HP HP24. induction k as [|k IH]; intros Hk Hcells; [done|].
  destruct IH as [IHdot IHabs]; [lia|intros; apply Hcells; lia|].
  destruct (Hcells k) as (Ha & Hb & Hab); [lia|].
  rewrite !dot_S, IHdot, !cell_f32_of_Zmatrix.
  change (s_add (dot A B i j k) (s_mul (cell A i k) (cell B k j)))
    with (dot A B i j k + cell A i k * cell B k j).
  split; [|lia].
  rewrite !f32_of_Z_int by lia. apply f32_int_step; lia.
Qed.

Lemma mul_exact A B (α β : Z) :
  wf A → wf B → get_width A = get_height B →
  all_cells (λ x, Z.abs x ≤ α) A → all_cells (λ x, Z.abs x ≤ β) B →
  0 ≤ α < 2 ^ 24 → 0 ≤ β < 2 ^ 24 →
  Z.max 1 (Z.of_nat (get_width A)) * (α * β) < 2 ^ 24 →
  ∃ AB, mul A B = Some AB
        ∧ mul (f32_of_Zmatrix A) (f32_of_Zmatrix B) = Some (f32_of_Zmatrix AB)
        ∧ wf AB
        ∧ get_height AB = get_height A
        ∧ get_width AB = get_width B
        ∧ all_cells (λ x, Z.abs x ≤ Z.of_nat (get_width A) * (α * β)) AB.
Proof.
  intros HA HB Hk HAα HBβ Hα Hβ Hbound.
  destruct (mul_defined A B) as (AB & HAB & HwAB & HhAB & HwdAB & HcAB);
    [done|done|lia|].
  destruct (mul_defined (f32_of_Zmatrix A) (f32_of_Zmatrix B))
    as (r & Hr & Hwr & Hhr & Hwdr & Hcr);
    [by apply wf_Matrix_map|by apply wf_Matrix_map|simpl; lia|].
  assert (∀ i j, (i < get_height A)%nat → (j < get_width B)%nat →
            dot (f32_of_Zmatrix A) (f32_of_Zmatrix B) i j (get_width A)
            = f32_of_Z (dot A B i j (get_width A))
            ∧ Z.abs (dot A B i j (get_width A))
              ≤ Z.of_nat (get_width A) * (α * β)) as Hdot.
  { intros i j Hi Hj. apply dot_exact; [nia|nia|nia|].
    intros k2 Hk2.
    pose proof (cell_all_cells _ A i k2 HA HAα Hi Hk2) as Ha.
    pose proof (cell_all_cells _ B k2 j HB HBβ ltac:(lia) Hj) as Hb.
    simpl in Ha, Hb. rewrite Z.abs_mul. repeat split; [lia|lia|nia]. }
  exists AB. repeat split; try done.
  - rewrite Hr. f_equal. apply matrix_ext; try done.
    + by apply wf_Matrix_map.
    + simpl in *. congruence.
    + simpl in *. congruence.
    + intros i j Hi Hj. simpl in Hhr, Hwdr. rewrite Hhr in Hi. rewrite Hwdr in Hj.
      rewrite Hcr by done.
      change (f32_of_Zmatrix AB) with (Matrix_map f32_of_Z AB).
      rewrite get_Matrix_map, HcAB by done.
      simpl. f_equal. by apply Hdot.
  - apply all_cells_get; [done|]. intros i j x Hi Hj.
    rewrite HcAB by lia. intros [= <-]. apply Hdot; lia.
Qed.

Lemma assoc_bounds (K N M k n T : Z) :
  1 ≤ K → 1 ≤ N → 0 ≤ k ≤ K → 0 ≤ n ≤ N → 0 ≤ M →
  K * N * (M * M * M) < T →
  M < T ∧ K * (M * M) < T ∧ k * (M * M) < T ∧ N * (k * (M * M) * M) < T
  ∧ N * (M * M) < T ∧ n * (M * M) < T ∧ K * (M * (n * (M * M))) < T.
Proof.
  intros HK HN Hk Hn HM HT.
  destruct (decide (M = 0)) as [->|HM0]; [lia|].
  assert (M ≤ M * M) by nia. assert (M * M ≤ M * M * M) by nia.
  assert (M * M * M ≤ N * (M * M * M)) by nia.
  assert (N * (M * M * M) ≤ K * (N * (M * M * M))) by nia.
  assert (k * (N * (M * M * M)) ≤ K * (N * (M * M * M))) by nia.
  assert (n * (M * M * M) ≤ N * (M * M * M)) by nia.
  assert (K * (n * (M * M * M)) ≤ K * (N * (M * M * M))) by nia.
  assert (M * M ≤ N * (M * M)) by nia.
  assert (n * (M * M) ≤ N * (M * M)) by nia.
  assert (N * (M * M) ≤ N * (M * M * M)) by nia.
  assert (M * M ≤ K * (M * M)) by nia.
  assert (k * (M * M) ≤ K * (M * M)) by nia.
  assert (K * (M * M) ≤ K * (M * M * M)) by nia.
  assert (K * (M * M * M) ≤ K * (N * (M * M * M))) by nia.
  repeat split; lia.
Qed.
End ExactMatrixProduct.

(** * The claims *)

(** ** Matrix product *)

(** C1. For [lhs] of shape m×k and [rhs] of shape k×n, [mul lhs rhs]
    returns an m×n matrix whose cell (i, j) is the sum over k2 in [0, k)
    of [lhs[i,k2] * rhs[k2,j]] in binary32 arithmetic, accumulated from
    [0.0f] in loop order; and [[1,2],[3,4]] times [[5,6],[7,8]] is
    [[19,22],[43,50]]. *)
Theorem mul_cells_are_dot_products :
  (∀ lhs rhs : Matrix spec_float,
     wf lhs → wf rhs → get_width lhs = get_height rhs →
     ∃ r, mul lhs rhs = Some r
          ∧ get_height r = get_height lhs
          ∧ get_width r = get_width rhs
          ∧ ∀ i j, i < get_height lhs → j < get_width rhs →
                   get r i j = Some (dot lhs rhs i j (get_width lhs)))
  ∧ mul (f32_matrix [[1; 2]; [3; 4]]%Z) (f32_matrix [[5; 6]; [7; 8]]%Z)
    = Some (f32_matrix [[19; 22]; [43; 50]]%Z).
Proof.
  split; [|by vm_compute].
  intros lhs rhs Hl Hr Hk.
  destruct (mul_defined lhs rhs) as (r & ? & ? & ? & ? & ?); [done|done|lia|].
  by exists r.
Qed.

Lemma mul_cells_are_dot_products_witness :
  let lhs := f32_matrix [[1; 2; 3]; [4; 5; 6]]%Z in
  let rhs := f32_matrix [[1; 0]; [0; 1]; [2; 2]]%Z in
  (wf lhs ∧ wf rhs ∧ get_width lhs = get_height rhs)
  ∧ ∃ r, mul lhs rhs = Some r
         ∧ get_height r = get_height lhs
         ∧ get_width r = get_width rhs
         ∧ ∀ i j, i < get_height lhs → j < get_width rhs →
                  get r i j = Some (dot lhs rhs i j (get_width lhs)).
Proof.
  intros lhs rhs. split; [by repeat split|].
  apply (proj1 mul_cells_are_dot_products lhs rhs); reflexivity.
Defined.

(** C3, as the code has it.  [mul] compares no dimensions and has no
    error to report.  With [lhs.width ≠ rhs.height]: when [rhs] has more
    rows than [lhs] has columns, or when the result has no cell, [mul]
    returns the [lhs.height × rhs.width] matrix of the sums over
    [k2 < lhs.width]; otherwise it reads [rhs] below its last row, which
    is undefined behaviour. *)
Theorem mul_unchecked_dimensions (lhs rhs : Matrix spec_float) :
  wf lhs → wf rhs → get_width lhs ≠ get_height rhs →
  (get_width lhs < get_height rhs ∨ get_height lhs = 0 ∨ get_width rhs = 0 →
     ∃ r, mul lhs rhs = Some r
          ∧ get_height r = get_height lhs
          ∧ get_width r = get_width rhs
          ∧ ∀ i j, i < get_height lhs → j < get_width rhs →
                   get r i j = Some (dot lhs rhs i j (get_width lhs)))
  ∧ (get_height rhs < get_width lhs →
     0 < get_height lhs → 0 < get_width rhs →
     mul lhs rhs = None).
Proof.
  intros Hl Hr Hne. split.
  - intros [Hlt|Hempty].
    + destruct (mul_defined lhs rhs) as (r & ? & ? & ? & ? & ?);
        [done|done|lia|].
      by exists r.
    + rewrite mul_empty by done. eexists. split; [done|].
      repeat split. intros i j Hi Hj. lia.
  - intros. by apply mul_undefined.
Qed.

Lemma mul_unchecked_dimensions_witness :
  let lhs := f32_matrix [[1; 2]]%Z in
  let rhs := f32_matrix [[3]; [4]; [5]]%Z in
  (wf lhs ∧ wf rhs ∧ get_width lhs ≠ get_height rhs)
  ∧ (get_width lhs < get_height rhs ∨ get_height lhs = 0 ∨ get_width rhs = 0 →
     ∃ r, mul lhs rhs = Some r
          ∧ get_height r = get_height lhs
          ∧ get_width r = get_width rhs
          ∧ ∀ i j, i < get_height lhs → j < get_width rhs →
                   get r i j = Some (dot lhs rhs i j (get_width lhs)))
  ∧ (get_height rhs < get_width lhs →
     0 < get_height lhs → 0 < get_width rhs →
     mul lhs rhs = None).
Proof.
  intros lhs rhs.
  assert (get_width lhs ≠ get_height rhs) as Hne by (simpl; lia).
  split; [by repeat split|].
  apply (mul_unchecked_dimensions lhs rhs); [reflexivity|reflexivity|exact Hne].
Defined.

(** C3 as stated fails: a 1×1 matrix times a 2×1 matrix has mismatched
    inner dimensions, and [mul] returns a 1×1 result. *)
Lemma mul_mismatch_returns :
  let lhs := f32_matrix [[2]]%Z in
  let rhs := f32_matrix [[3]; [4]]%Z in
  get_width lhs ≠ get_height rhs
  ∧ mul lhs rhs = Some (f32_matrix [[6]]%Z).
Proof. split; [simpl; lia|by vm_compute]. Qed.

(** C5, as the code has it.  For every m×k matrix [A] of finite floats,
    [mul A I] with the k×k identity is an m×k matrix whose every cell
    compares equal ([==]) to the cell of [A], and is the very same float
    unless that cell is [-0.0f], which comes out as [+0.0f]: the cell is
    [positive_zero] of the cell of [A]. *)
Theorem mul_identity_finite (A : Matrix spec_float) :
  wf A → all_cells finite_float A →
  ∃ r, mul A (identity (get_width A)) = Some r
       ∧ get_height r = get_height A
       ∧ get_width r = get_width A
       ∧ ∀ i j, i < get_height A → j < get_width A →
           ∃ a c, get A i j = Some a
                  ∧ get r i j = Some c
                  ∧ c = positive_zero a
                  ∧ f32_eqb c a = true
                  ∧ (a ≠ S754_zero true → c = a).
Proof.
  intros Hwf Hfin.
  destruct (mul_defined A (identity (get_width A)))
    as (r & Hmul & _ & Hh & Hw & Hcells);
    [done|apply wf_Matrix_init|done|].
  exists r. repeat split; try done.
  intros i j Hi Hj.
  destruct (cell_all_cells finite_float A i j) as [_ Hf]; [done..|].
  exists (cell A i j), (s_add s_zero (cell A i j)).
  rewrite get_cell, Hcells by done.
  rewrite dot_identity by done. case_decide; [lia|].
  repeat split.
  - apply f32_add_zero_positive.
  - by apply f32_eqb_add_zero.
  - intros Hnz. by apply f32_add_zero_l.
Qed.

Lemma mul_identity_finite_witness :
  let A := matrix_of_rows [[f32_of_Z 1; S754_zero true; f32_of_Z 0];
                           [f32_of_Z 4; f32_of_Z (-5); f32_of_Z 6]] in
  (wf A ∧ all_cells finite_float A)
  ∧ ∃ r, mul A (identity (get_width A)) = Some r
         ∧ get_height r = get_height A
         ∧ get_width r = get_width A
         ∧ ∀ i j, i < get_height A → j < get_width A →
             ∃ a c, get A i j = Some a
                    ∧ get r i j = Some c
                    ∧ c = positive_zero a
                    ∧ f32_eqb c a = true
                    ∧ (a ≠ S754_zero true → c = a).
Proof.
  intros A.
  assert (all_cells finite_float A) as Hfin
    by (repeat constructor; reflexivity).
  split; [split; [reflexivity|exact Hfin]|].
  apply (mul_identity_finite A); [reflexivity|exact Hfin].
Defined.

(** C5 as stated fails on an infinite entry: the row (inf, 1) times the
    2×2 identity is (inf, NaN), because [inf * 0.0f] is NaN. *)
Lemma mul_identity_inf :
  let A := matrix_of_rows [[S754_infinity false; f32_of_Z 1]] in
  mul A (identity 2) = Some (matrix_of_rows [[S754_infinity false; S754_nan]])
  ∧ get A 0 1 = Some (f32_of_Z 1)
  ∧ f32_eqb S754_nan (f32_of_Z 1) = false.
Proof. by vm_compute. Qed.

(** C6, as the code has it.  For every m×k matrix [A] of finite floats,
    [mul A Z] with the k×n zero matrix is the m×n zero matrix. *)
Theorem mul_zeros_finite (A : Matrix spec_float) (n : nat) :
  wf A → all_cells (λ x, finite x = true) A →
  mul A (zeros (get_width A) n) = Some (zeros (get_height A) n).
Proof.
  intros Hwf Hfin.
  destruct (mul_defined A (zeros (get_width A) n))
    as (r & -> & Hwfr & Hh & Hw & Hcells);
    [done|apply wf_Matrix_init|done|].
  f_equal. apply matrix_ext; try done; [apply wf_Matrix_init|].
  intros i j Hi Hj. rewrite Hh in Hi. rewrite Hw in Hj. simpl in Hj.
  rewrite Hcells by done.
  unfold zeros at 2. rewrite get_Matrix_init by done.
  by rewrite dot_zeros.
Qed.

Lemma mul_zeros_finite_witness :
  let A := f32_matrix [[1; -2; 0]; [4; 5; 6]]%Z in
  (wf A ∧ all_cells (λ x, finite x = true) A)
  ∧ mul A (zeros (get_width A) 2) = Some (zeros (get_height A) 2).
Proof.
  intros A.
  assert (all_cells (λ x, finite x = true) A) as Hfin
    by (repeat constructor).
  split; [split; [reflexivity|exact Hfin]|].
  apply (mul_zeros_finite A 2); [reflexivity|exact Hfin].
Defined.

(** C6 as stated fails on an infinite entry: (inf) times the 1×1 zero
    matrix is (NaN), and on a NaN entry likewise. *)
Lemma mul_zeros_inf :
  mul (matrix_of_rows [[S754_infinity false]]) (zeros 1 1)
  = Some (matrix_of_rows [[S754_nan]])
  ∧ mul (matrix_of_rows [[S754_nan]]) (zeros 1 1)
    = Some (matrix_of_rows [[S754_nan]])
  ∧ matrix_of_rows [[S754_nan]] ≠ zeros 1 1.
Proof. by vm_compute. Qed.

(** ** Vector addition *)

(** C2. For vectors [a] and [b] of one length, [a + b] has element [i]
    equal to [a[i] + b[i]] at every index of [a]; and
    [add([1,2,3], [4,5,6])] is [[5,7,9]]. *)
Theorem add_elementwise :
  (∀ a b : list spec_float, length a = length b →
     ∃ r, add a b = Some r
          ∧ length r = length a
          ∧ ∀ i x y, a !! i = Some x → b !! i = Some y →
                     r !! i = Some (s_add x y))
  ∧ add (f32_vector [1; 2; 3]%Z) (f32_vector [4; 5; 6]%Z)
    = Some (f32_vector [5; 7; 9]%Z).
Proof.
  split; [|by vm_compute].
  intros a b Hlen. rewrite add_defined by lia.
  eexists. split; [done|]. split.
  - apply length_zip_with_l. lia.
  - intros i x y Hx Hy. by rewrite lookup_zip_with, Hx, Hy.
Qed.

Lemma add_elementwise_witness :
  let a := f32_vector [10; -20]%Z in
  let b := f32_vector [1; 2]%Z in
  length a = length b
  ∧ ∃ r, add a b = Some r
         ∧ length r = length a
         ∧ ∀ i x y, a !! i = Some x → b !! i = Some y →
                    r !! i = Some (s_add x y).
Proof.
  intros a b. split; [reflexivity|].
  apply (proj1 add_elementwise a b). reflexivity.
Defined.

(** C7. Vector addition is commutative: for vectors of one length,
    [a + b] and [b + a] are defined and are the same vector.  (An element
    of the sum that is NaN is NaN in both; every other element also
    compares equal to itself under [==].) *)
Theorem add_commutative (a b : list spec_float) :
  length a = length b →
  ∃ r, add a b = Some r
       ∧ add b a = Some r
       ∧ ∀ i x, r !! i = Some x → x ≠ S754_nan → f32_eqb x x = true.
Proof.
  intros Hlen. rewrite !add_defined by lia.
  exists (zip_with s_add a b). repeat split.
  - f_equal. apply list_eq. intros i. rewrite !lookup_zip_with.
    destruct (a !! i) as [x|], (b !! i) as [y|]; simpl; try done.
    f_equal. apply f32_add_comm.
  - intros i x _ Hx. destruct x as [[]|[]| |s m e]; try done.
    unfold f32_eqb, SFeqb, SFcompare.
    rewrite Z.compare_refl, Pos.compare_cont_refl. by destruct s.
Qed.

Lemma add_commutative_witness :
  let a := f32_vector [10; -20]%Z in
  let b := f32_vector [1; 2]%Z in
  length a = length b
  ∧ ∃ r, add a b = Some r
         ∧ add b a = Some r
         ∧ ∀ i x, r !! i = Some x → x ≠ S754_nan → f32_eqb x x = true.
Proof.
  intros a b. split; [reflexivity|].
  apply (add_commutative a b). reflexivity.
Defined.

(** C9. For two vector objects [a] and [b] of one length in a store,
    [a + b] returns the elementwise sum and leaves the store, and so [a]
    and [b], as it was; [a += b] stores the elementwise sum in [a],
    changes no other object, and returns the reference [a] itself. *)
Theorem add_pure_add_assign_in_place
    (h : gmap nat (list spec_float)) (a b : nat) (va vb : list spec_float) :
  h !! a = Some va → h !! b = Some vb → length va = length vb →
  (∃ h', op_add a b h = Some (zip_with s_add va vb, h')
         ∧ h' !! a = Some va ∧ h' !! b = Some vb ∧ h' = h)
  ∧ (∃ h', op_add_assign a b h = Some (a, h')
           ∧ h' !! a = Some (zip_with s_add va vb)
           ∧ ∀ c, c ≠ a → h' !! c = h !! c).
Proof.
  intros Ha Hb Hlen. split.
  - exists h. by rewrite (op_add_defined a b h va vb) by (done || lia).
  - eexists. rewrite (op_add_assign_defined a b h va vb) by (done || lia).
    split; [done|]. split; [by rewrite lookup_insert_eq|].
    intros c Hc. by rewrite lookup_insert_ne.
Qed.

Lemma add_pure_add_assign_in_place_witness :
  let va := f32_vector [1; 2; 3]%Z in
  let vb := f32_vector [4; 5; 6]%Z in
  let h : gmap nat (list spec_float) := <[7 := va]> (<[9 := vb]> ∅) in
  (h !! 7 = Some va ∧ h !! 9 = Some vb ∧ length va = length vb)
  ∧ (∃ h', op_add 7 9 h = Some (zip_with s_add va vb, h')
           ∧ h' !! 7 = Some va ∧ h' !! 9 = Some vb ∧ h' = h)
  ∧ (∃ h', op_add_assign 7 9 h = Some (7, h')
           ∧ h' !! 7 = Some (zip_with s_add va vb)
           ∧ ∀ c, c ≠ 7 → h' !! c = h !! c).
Proof.
  intros va vb h. split; [by repeat split|].
  apply (add_pure_add_assign_in_place h 7 9 va vb); reflexivity.
Defined.

(** C10. For vectors with [a.length <= b.length], [a + b] is defined (no
    element of either operand is read out of range) and has the length of
    [a]; the sum of two empty vectors is the empty vector. *)
Theorem add_defined_when_rhs_covers :
  (∀ a b : list spec_float, length a ≤ length b →
     ∃ r, add a b = Some r ∧ length r = length a)
  ∧ add (T:=spec_float) [] [] = Some [].
Proof.
  split; [|by vm_compute].
  intros a b Hlen. rewrite add_defined by done.
  eexists. split; [done|]. by apply length_zip_with_l.
Qed.

Lemma add_defined_when_rhs_covers_witness :
  let a := f32_vector [1; 2]%Z in
  let b := f32_vector [4; 5; 6]%Z in
  length a ≤ length b
  ∧ ∃ r, add a b = Some r ∧ length r = length a.
Proof.
  intros a b. split; [simpl; lia|].
  apply (proj1 add_defined_when_rhs_covers a b). simpl. lia.
Defined.

(** ** The demonstration program *)

(** C4.  [main] does not write "5 7 9\n": the span it loops over views
    the temporary [v1 + v2], which is destroyed before the first
    iteration, so the first read of [elem] goes through a dangling span
    and the run is undefined. *)
Theorem main_reads_destroyed_temporary : main = None.
Proof. by vm_compute. Qed.

(** Were the temporary kept alive until the loop ends, the loop would
    write every element followed by one space, the last one included:
    "5 7 9 \n", and [main] would return 0. *)
Lemma main_with_extended_temporary :
  main_with true = Some (String.append "5 7 9 " newline, 0%Z).
Proof. by vm_compute. Qed.

(** C8, as the code has it.  Over binary32 the two bracketings agree when
    nothing is rounded: for integer matrices [A] (m×k), [B] (k×n) and
    [C] (n×p) whose entries have magnitude at most [M], with
    [max(1,k) * max(1,n) * M^3 < 2^24], both [(A B) C] and [A (B C)]
    computed by [mul] on floats are defined and are the float image of the
    exact integer product.  Beyond such bounds the two sides can differ
    by rounding. *)
Theorem mul_assoc_small_integers (A B C : Matrix Z) (M : Z) :
  wf A → wf B → wf C →
  get_width A = get_height B → get_width B = get_height C →
  all_cells (λ x, Z.abs x ≤ M)%Z A →
  all_cells (λ x, Z.abs x ≤ M)%Z B →
  all_cells (λ x, Z.abs x ≤ M)%Z C →
  (0 ≤ M)%Z →
  (Z.max 1 (Z.of_nat (get_width A)) * Z.max 1 (Z.of_nat (get_width B)) * M ^ 3
   < 2 ^ 24)%Z →
  ∃ R : Matrix Z,
    (AB ← mul A B; mul AB C) = Some R
    ∧ (AB ← mul (f32_of_Zmatrix A) (f32_of_Zmatrix B);
       mul AB (f32_of_Zmatrix C)) = Some (f32_of_Zmatrix R)
    ∧ (BC ← mul (f32_of_Zmatrix B) (f32_of_Zmatrix C);
       mul (f32_of_Zmatrix A) BC) = Some (f32_of_Zmatrix R).
Proof.
  intros HA HB HC Hk Hn HAM HBM HCM HM Hbound.
  replace (M ^ 3)%Z with (M * M * M)%Z in Hbound by ring.
  destruct (assoc_bounds (Z.max 1 (Z.of_nat (get_width A)))
              (Z.max 1 (Z.of_nat (get_width B))) M
              (Z.of_nat (get_width A)) (Z.of_nat (get_width B)) (2 ^ 24))
    as (H1 & H2 & H3 & H4 & H5 & H6 & H7); [lia..|done|].
  destruct (mul_exact A B M M) as (AB & HAB & HfAB & HwfAB & HhAB & HwAB & HcAB);
    [done..|lia|lia|done|].
  destruct (mul_exact B C M M) as (BC & HBC & HfBC & HwfBC & HhBC & HwBC & HcBC);
    [done..|lia|lia|done|].
  destruct (mul_exact AB C _ M HwfAB HC ltac:(congruence) HcAB HCM)
    as (L & HL & HfL & _); [lia|lia|rewrite HwAB; lia|].
  destruct (mul_exact A BC M _ HA HwfBC ltac:(congruence) HAM HcBC)
    as (R & HR & HfR & _); [lia|lia|lia|].
  destruct (mul_assoc_exact A B C) as (R' & Hl & Hr); [done..|].
  rewrite HAB in Hl. rewrite HBC in Hr. simpl in Hl, Hr.
  assert (L = R') as -> by congruence. assert (R = R') as -> by congruence.
  exists R'. rewrite HAB, HfAB, HfBC. simpl. by rewrite HL, HfL, HfR.
Qed.

Lemma mul_assoc_small_integers_witness :
  let A := matrix_of_rows [[1; -2]; [3; 4]]%Z in
  let B := matrix_of_rows [[0; 5; -6]; [7; 8; 9]]%Z in
  let C := matrix_of_rows [[9]; [-8]; [7]]%Z in
  ∃ R : Matrix Z,
    (AB ← mul A B; mul AB C) = Some R
    ∧ (AB ← mul (f32_of_Zmatrix A) (f32_of_Zmatrix B);
       mul AB (f32_of_Zmatrix C)) = Some (f32_of_Zmatrix R)
    ∧ (BC ← mul (f32_of_Zmatrix B) (f32_of_Zmatrix C);
       mul (f32_of_Zmatrix A) BC) = Some (f32_of_Zmatrix R).
Proof.
  intros A B C.
  apply (mul_assoc_small_integers A B C 9);
    try reflexivity; try (repeat constructor; simpl; lia); simpl; lia.
Defined.

(** C8 as stated fails: on 1×1 matrices, [(3 * 4097) * 4097] is
    50356228 in binary32 and [3 * (4097 * 4097)] is 50356224, and the two
    floats are different under [==]. *)
Lemma mul_not_associative :
  let A := f32_matrix [[3]]%Z in
  let B := f32_matrix [[4097]]%Z in
  let C := f32_matrix [[4097]]%Z in
  (AB ← mul A B; mul AB C) = Some (f32_matrix [[50356228]]%Z)
  ∧ (BC ← mul B C; mul A BC) = Some (f32_matrix [[50356224]]%Z)
  ∧ f32_eqb (f32_of_Z 50356228) (f32_of_Z 50356224) = false.
Proof. by vm_compute. Qed.

(** * Further properties of the code *)

(** ** vector.h: operator+= and operator+ *)

Section VectorProperties.
Context {T : Type} `{Scalar T}.
Implicit Types (h : gmap nat (list T)) (d r va vb vc : list T).

(** [a += b] is defined exactly when [b] has at least as many elements
    as [a]: the loop runs over the indices of [a] and reads [b] at each
    of them, so a shorter [b] is read past its end. *)
Theorem op_add_assign_defined_iff h (this rhs : nat) d r :
  h !! this = Some d → h !! rhs = Some r →
  is_Some (op_add_assign this rhs h) ↔ length d ≤ length r.
Proof.
  intros Hd Hr. split.
  - intros [res Hres]. destruct (decide (length d ≤ length r)); [done|].
    rewrite (op_add_assign_undefined this rhs h d r) in Hres by (done || lia).
    done.
  - intros Hlen. by rewrite (op_add_assign_defined this rhs h d r).
Qed.

(** [a += b] never changes the size of an object nor the set of objects:
    after a defined run the reference returned is [a], the store has the
    objects it had, and [data()] of every object is a span of the same
    size as before. *)
Theorem op_add_assign_keeps_sizes h h' (this rhs ref : nat) r :
  h !! rhs = Some r →
  op_add_assign this rhs h = Some (ref, h') →
  ref = this
  ∧ dom h' = dom h
  ∧ ∀ c, data c h' = data c h.
Proof.
  intros Hr Hrun.
  destruct (h !! this) as [d|] eqn:Hd;
    [|by unfold op_add_assign in Hrun; rewrite Hd in Hrun].
  assert (length d ≤ length r) as Hlen.
  { destruct (decide (length d ≤ length r)); [done|].
    by rewrite (op_add_assign_undefined this rhs h d r) in Hrun by (done || lia). }
  rewrite (op_add_assign_defined this rhs h d r) in Hrun by done.
  injection Hrun as <- <-. split; [done|]. split.
  - apply dom_insert_lookup_L. by eexists.
  - intros c. unfold data. destruct (decide (c = this)) as [->|Hne].
    + rewrite lookup_insert_eq, Hd. simpl.
      by rewrite length_zip_with_l.
    + by rewrite lookup_insert_ne.
Qed.

(** [a += a] is defined for every vector and adds each element to
    itself; [a + a] returns the same sums and leaves [a] as it was. *)
Theorem add_assign_self h (a : nat) va :
  h !! a = Some va →
  op_add_assign a a h = Some (a, <[a := (λ x, s_add x x) <$> va]> h)
  ∧ op_add a a h = Some ((λ x, s_add x x) <$> va, h).
Proof.
  intros Ha. rewrite <- zip_with_diag. split.
  - by apply op_add_assign_defined.
  - by apply op_add_defined.
Qed.

(** Chained addition [(a += b) += c] works on the one object [a]: when
    [b] and [c] are at least as long as [a], and [c] is another object
    than [a], it leaves [(a[i] + b[i]) + c[i]] in [a], changes no other
    object and returns [a]. *)
Theorem add_assign_chain h (a b c : nat) va vb vc :
  h !! a = Some va → h !! b = Some vb → h !! c = Some vc →
  a ≠ c → length va ≤ length vb → length va ≤ length vc →
  ('(ref, h') ← op_add_assign a b h; op_add_assign ref c h')
  = Some (a, <[a := zip_with s_add (zip_with s_add va vb) vc]> h).
Proof.
  intros Ha Hb Hc Hne Hlb Hlc.
  rewrite (op_add_assign_defined a b h va vb) by done. simpl.
  rewrite (op_add_assign_defined a c _ (zip_with s_add va vb) vc).
  - by rewrite insert_insert_eq.
  - by rewrite lookup_insert_eq.
  - by rewrite lookup_insert_ne.
  - rewrite length_zip_with_l; done.
Qed.

(** [a + b] is defined exactly when [b] has at least as many elements
    as [a]; the elements of [b] beyond the length of [a] are never read,
    so the sum is that of [a] and the first [a.length] elements of [b]. *)
Theorem add_defined_iff_and_truncates (a b : list T) :
  (is_Some (add a b) ↔ length a ≤ length b)
  ∧ (length a ≤ length b → add a b = add a (take (length a) b)).
Proof.
  split; [split|].
  - intros [res Hres]. destruct (decide (length a ≤ length b)); [done|].
    rewrite add_undefined in Hres by lia. done.
  - intros Hlen. by rewrite add_defined.
  - intros Hlen. rewrite !add_defined; [|rewrite length_take; lia|done].
    by rewrite zip_with_take_r.
Qed.
End VectorProperties.

Lemma op_add_assign_defined_iff_witness :
  let h : gmap nat (list Z) := <[3 := [1; 2]%Z]> (<[5 := [7]%Z]> ∅) in
  (h !! 3 = Some [1; 2]%Z ∧ h !! 5 = Some [7]%Z)
  ∧ (is_Some (op_add_assign 3 5 h) ↔ length [1; 2]%Z ≤ length [7]%Z).
Proof.
  intros h. split; [by split|].
  apply (op_add_assign_defined_iff h 3 5); reflexivity.
Defined.

Lemma op_add_assign_keeps_sizes_witness :
  let h : gmap nat (list Z) := <[3 := [1; 2]%Z]> (<[5 := [7; 8; 9]%Z]> ∅) in
  let h' : gmap nat (list Z) := <[3 := [8; 10]%Z]> h in
  (h !! 5 = Some [7; 8; 9]%Z ∧ op_add_assign 3 5 h = Some (3, h'))
  ∧ 3 = 3 ∧ dom h' = dom h ∧ ∀ c, data c h' = data c h.
Proof.
  intros h h'.
  assert (op_add_assign 3 5 h = Some (3, h')) as Hrun by (by vm_compute).
  split; [by split|].
  apply (op_add_assign_keeps_sizes h h' 3 5 3 [7; 8; 9]%Z);
    [reflexivity|exact Hrun].
Defined.

Lemma add_assign_self_witness :
  let h : gmap nat (list Z) := <[3 := [1; 2]%Z]> ∅ in
  h !! 3 = Some [1; 2]%Z
  ∧ op_add_assign 3 3 h = Some (3, <[3 := (λ x, s_add x x) <$> [1; 2]%Z]> h)
  ∧ op_add 3 3 h = Some ((λ x, s_add x x) <$> [1; 2]%Z, h).
Proof.
  intros h. split; [reflexivity|].
  apply (add_assign_self h 3). reflexivity.
Defined.

Lemma add_assign_chain_witness :
  let h : gmap nat (list Z) :=
    <[1 := [1; 2]%Z]> (<[2 := [10; 20]%Z]> (<[3 := [100; 200; 300]%Z]> ∅)) in
  ('(ref, h') ← op_add_assign 1 2 h; op_add_assign ref 3 h')
  = Some (1, <[1 := zip_with s_add (zip_with s_add [1; 2]%Z [10; 20]%Z)
                       [100; 200; 300]%Z]> h).
Proof.
  intros h.
  apply (add_assign_chain h 1 2 3); try reflexivity; simpl; lia.
Defined.

Lemma add_defined_iff_and_truncates_witness :
  let a := [1; 2]%Z in
  let b := [10; 20; 30]%Z in
  length a ≤ length b ∧ add a b = add a (take (length a) b).
Proof.
  intros a b. split; [simpl; lia|].
  apply (proj2 (add_defined_iff_and_truncates a b)). simpl. lia.
Defined.

(** ** Vector addition in binary32 *)

(** Adding vectors of small integers is exact: when the elements of [a]
    and [b] and their sums have magnitude below [2^24], [a + b] on floats
    holds the integer sums. *)
Theorem add_small_integers_exact (a b : list Z) :
  length a ≤ length b →
  (∀ i x y, a !! i = Some x → b !! i = Some y →
     Z.abs x < 2 ^ 24 ∧ Z.abs y < 2 ^ 24 ∧ Z.abs (x + y) < 2 ^ 24)%Z →
  add (f32_vector a) (f32_vector b) = Some (f32_vector (zip_with Z.add a b)).
Proof.
  intros Hlen Hsmall. unfold f32_vector.
  rewrite add_defined by (by rewrite !length_fmap).
  f_equal. apply list_eq. intros i.
  rewrite list_lookup_fmap, !lookup_zip_with, !list_lookup_fmap.
  destruct (a !! i) as [x|] eqn:Hx; [|done]. simpl.
  destruct (b !! i) as [y|] eqn:Hy; [|done]. simpl.
  destruct (Hsmall i x y Hx Hy) as (Hax & Hay & Haxy).
  rewrite !f32_of_Z_int by done. f_equal. by apply f32_int_add.
Qed.

Lemma add_small_integers_exact_witness :
  let a := [16777000; -5; 0]%Z in
  let b := [215; -7; 3; 99]%Z in
  add (f32_vector a) (f32_vector b) = Some (f32_vector (zip_with Z.add a b)).
Proof.
  intros a b. apply (add_small_integers_exact a b); [simpl; lia|].
  intros [|[|[|i]]] x y; simpl; intros [= <-] [= <-]; lia.
Defined.

(** Accumulating into a zero vector gives the operand back: for every
    vector [v] of floats, infinities and NaN included, [zero += v] (and
    [zero + v]) has the elements of [v], except that a [-0.0f] becomes
    [+0.0f]. *)
Theorem add_to_zero_vector (v : list spec_float) :
  add (replicate (length v) s_zero) v = Some (positive_zero <$> v).
Proof.
  rewrite add_defined by (by rewrite length_replicate).
  f_equal. apply list_eq. intros i.
  rewrite lookup_zip_with, list_lookup_fmap.
  destruct (v !! i) as [x|] eqn:Hx.
  - rewrite lookup_replicate_2 by (by eapply lookup_lt_Some). simpl.
    f_equal. by destruct x as [[]|[]| |s m e].
  - by destruct (replicate (length v) s_zero !! i).
Qed.

(** ** mmul.cc: mul *)

Lemma f32_mul_comm (x y : spec_float) : s_mul x y = s_mul y x.
Proof.
  destruct x as [sx|sx| |sx mx ex], y as [sy|sy| |sy my ey]; simpl;
    try done; try (by rewrite xorb_comm).
  by rewrite xorb_comm, Pos.mul_comm, Z.add_comm.
Qed.

Lemma f32_nan_absorbs (x : spec_float) :
  s_mul S754_nan x = S754_nan ∧ s_mul x S754_nan = S754_nan
  ∧ s_add S754_nan x = S754_nan ∧ s_add x S754_nan = S754_nan.
Proof. by destruct x as [[]|[]| |s m e]. Qed.

Section MulProperties.
Implicit Types (A B lhs rhs : Matrix spec_float) (i j k n : nat).

Lemma dot_zeros_left A m i j k :
  wf A → all_cells (λ x, finite x = true) A →
  i < m → j < get_width A → k ≤ get_height A →
  dot (zeros m (get_height A)) A i j k = S754_zero false.
Proof.
  intros Hwf Hfin Hi Hj. induction k as [|k IH]; intros Hk; [done|].
  rewrite dot_S, IH by lia.
  unfold zeros. rewrite cell_Matrix_init by lia. rewrite f32_mul_comm.
  pose proof (cell_all_cells (λ x, finite x = true) A k j) as Hf.
  by destruct (f32_mul_zero_r (cell A k j)) as [-> | ->]; [auto with lia|..].
Qed.

Lemma dot_identity_left A i j k :
  wf A → all_cells finite_float A →
  i < get_height A → j < get_width A → k ≤ get_height A →
  dot (identity (get_height A)) A i j k
  = if decide (k ≤ i) then S754_zero false
    else s_add s_zero (cell A i j).
Proof.
  intros Hwf Hfin Hi Hj. induction k as [|k IH]; intros Hk; [done|].
  rewrite dot_S, IH by lia.
  unfold identity. rewrite cell_Matrix_init by lia. rewrite f32_mul_comm.
  pose proof (cell_all_cells finite_float A k j Hwf Hfin ltac:(lia) Hj)
    as Hcell.
  destruct (Nat.eqb_spec i k) as [->|Hne].
  - rewrite f32_mul_one by done. by repeat case_decide; try lia.
  - destruct Hcell as [_ Hf].
    pose proof (f32_add_zero_idem (cell A i j)) as [Hp Hn].
    repeat case_decide; try lia;
      by destruct (f32_mul_zero_r _ Hf) as [-> | ->].
Qed.

(** A NaN among the terms makes the sum NaN, whatever comes after. *)
Lemma dot_nan lhs rhs i j k0 k :
  k0 < k →
  cell lhs i k0 = S754_nan ∨ cell rhs k0 j = S754_nan →
  dot lhs rhs i j k = S754_nan.
Proof.
  intros Hk0 Hnan. induction k as [|k IH]; [lia|].
  rewrite dot_S. destruct (decide (k0 = k)) as [->|Hne].
  - destruct Hnan as [-> | ->].
    + rewrite (proj1 (f32_nan_absorbs _)). apply f32_nan_absorbs.
    + rewrite (proj1 (proj2 (f32_nan_absorbs _))). apply f32_nan_absorbs.
  - rewrite IH by lia. apply f32_nan_absorbs.
Qed.

Lemma cell_transpose lhs i j :
  wf lhs → i < get_width lhs → j < get_height lhs →
  cell (transpose lhs) i j = cell lhs j i.
Proof. intros. unfold transpose. by rewrite cell_Matrix_init. Qed.

Lemma dot_transpose A B i j k :
  wf A → wf B →
  i < get_height A → j < get_width B →
  k ≤ get_width A → k ≤ get_height B →
  dot (transpose B) (transpose A) j i k = dot A B i j k.
Proof.
  intros HA HB Hi Hj. induction k as [|k IH]; intros HkA HkB; [done|].
  rewrite !dot_S, IH, !cell_transpose by (done || lia).
  by rewrite f32_mul_comm.
Qed.
End MulProperties.

(** With an inner dimension of zero the innermost loop never runs, and no
    cell of either operand is read: whatever the number of rows of [rhs],
    the product of an m×0 matrix and [rhs] is the m×n matrix of [0.0f]. *)
Theorem mul_empty_inner_dimension (lhs rhs : Matrix spec_float) :
  wf lhs → wf rhs → get_width lhs = 0 →
  mul lhs rhs = Some (zeros (get_height lhs) (get_width rhs)).
Proof.
  intros Hl Hr Hk.
  destruct (mul_defined lhs rhs) as (r & -> & Hwf & Hh & Hw & Hcells);
    [done|done|lia|].
  f_equal. apply matrix_ext; try done; [apply wf_Matrix_init|].
  intros i j Hi Hj. rewrite Hh in Hi. rewrite Hw in Hj.
  rewrite Hcells by done. rewrite Hk.
  unfold zeros. by rewrite get_Matrix_init.
Qed.

Lemma mul_empty_inner_dimension_witness :
  let lhs := matrix_of_rows [[]; []] in
  let rhs := f32_matrix [[1; 2; 3]]%Z in
  (wf lhs ∧ wf rhs ∧ get_width lhs = 0)
  ∧ mul lhs rhs = Some (zeros (get_height lhs) (get_width rhs)).
Proof.
  intros lhs rhs. split; [by repeat split|].
  apply (mul_empty_inner_dimension lhs rhs); reflexivity.
Defined.

(** The identity on the left: for every m×n matrix [A] of finite floats,
    [mul I A] with the m×m identity is an m×n matrix whose every cell
    compares equal ([==]) to the cell of [A], and is the same float unless
    that cell is [-0.0f], which comes out as [+0.0f]: the cell is
    [positive_zero] of the cell of [A]. *)
Theorem mul_identity_left_finite (A : Matrix spec_float) :
  wf A → all_cells finite_float A →
  ∃ r, mul (identity (get_height A)) A = Some r
       ∧ get_height r = get_height A
       ∧ get_width r = get_width A
       ∧ ∀ i j, i < get_height A → j < get_width A →
           ∃ a c, get A i j = Some a
                  ∧ get r i j = Some c
                  ∧ c = positive_zero a
                  ∧ f32_eqb c a = true
                  ∧ (a ≠ S754_zero true → c = a).
Proof.
  intros Hwf Hfin.
  destruct (mul_defined (identity (get_height A)) A)
    as (r & Hmul & _ & Hh & Hw & Hcells);
    [apply wf_Matrix_init|done|done|].
  exists r. repeat split; try done.
  intros i j Hi Hj.
  destruct (cell_all_cells finite_float A i j) as [_ Hf]; [done..|].
  exists (cell A i j), (s_add s_zero (cell A i j)).
  rewrite get_cell, Hcells by done.
  change (get_width (identity (get_height A))) with (get_height A).
  rewrite dot_identity_left by done. case_decide; [lia|].
  repeat split.
  - apply f32_add_zero_positive.
  - by apply f32_eqb_add_zero.
  - intros Hnz. by apply f32_add_zero_l.
Qed.

Lemma mul_identity_left_finite_witness :
  let A := matrix_of_rows [[f32_of_Z 1; S754_zero true; f32_of_Z 0];
                           [f32_of_Z 4; f32_of_Z (-5); f32_of_Z 6]] in
  (wf A ∧ all_cells finite_float A)
  ∧ ∃ r, mul (identity (get_height A)) A = Some r
         ∧ get_height r = get_height A
         ∧ get_width r = get_width A
         ∧ ∀ i j, i < get_height A → j < get_width A →
             ∃ a c, get A i j = Some a
                    ∧ get r i j = Some c
                    ∧ c = positive_zero a
                    ∧ f32_eqb c a = true
                    ∧ (a ≠ S754_zero true → c = a).
Proof.
  intros A.
  assert (all_cells finite_float A) as Hfin
    by (repeat constructor; reflexivity).
  split; [split; [reflexivity|exact Hfin]|].
  apply (mul_identity_left_finite A); [reflexivity|exact Hfin].
Defined.

(** The zero matrix on the left: for every k×n matrix [A] of finite
    floats, [mul Z A] with the m×k zero matrix is the m×n zero matrix. *)
Theorem mul_zeros_left_finite (A : Matrix spec_float) (m : nat) :
  wf A → all_cells (λ x, finite x = true) A →
  mul (zeros m (get_height A)) A = Some (zeros m (get_width A)).
Proof.
  intros Hwf Hfin.
  destruct (mul_defined (zeros m (get_height A)) A)
    as (r & -> & Hwfr & Hh & Hw & Hcells);
    [apply wf_Matrix_init|done|done|].
  f_equal. apply matrix_ext; try done; [apply wf_Matrix_init|].
  intros i j Hi Hj. rewrite Hh in Hi. rewrite Hw in Hj. simpl in Hi.
  rewrite Hcells by done.
  unfold zeros at 3. rewrite get_Matrix_init by done.
  change (get_width (zeros m (get_height A))) with (get_height A).
  by rewrite dot_zeros_left.
Qed.

Lemma mul_zeros_left_finite_witness :
  let A := f32_matrix [[1; -2; 0]; [4; 5; 6]]%Z in
  (wf A ∧ all_cells (λ x, finite x = true) A)
  ∧ mul (zeros 3 (get_height A)) A = Some (zeros 3 (get_width A)).
Proof.
  intros A.
  assert (all_cells (λ x, finite x = true) A) as Hfin
    by (repeat constructor).
  split; [split; [reflexivity|exact Hfin]|].
  apply (mul_zeros_left_finite A 3); [reflexivity|exact Hfin].
Defined.

(** [mul] gives NaN no special treatment: if [lhs[i,k]] or [rhs[k,j]] is
    NaN for some [k], then cell (i, j) of the product is NaN.  So one NaN
    in [lhs] fills a row of the product, and one in [rhs] a column. *)
Theorem mul_nan_propagates (lhs rhs : Matrix spec_float) (i j k : nat) :
  wf lhs → wf rhs → get_width lhs = get_height rhs →
  i < get_height lhs → j < get_width rhs → k < get_width lhs →
  get lhs i k = Some S754_nan ∨ get rhs k j = Some S754_nan →
  ∃ r, mul lhs rhs = Some r ∧ get r i j = Some S754_nan.
Proof.
  intros Hl Hr Hdim Hi Hj Hk Hnan.
  destruct (mul_defined lhs rhs) as (r & Hmul & _ & _ & _ & Hcells);
    [done|done|lia|].
  exists r. split; [done|]. rewrite Hcells by done. f_equal.
  apply (dot_nan lhs rhs i j k); [done|].
  unfold cell. destruct Hnan as [-> | ->]; auto.
Qed.

Lemma mul_nan_propagates_witness :
  let lhs := matrix_of_rows [[f32_of_Z 1; S754_nan]; [f32_of_Z 3; f32_of_Z 4]] in
  let rhs := f32_matrix [[5; 6]; [0; 8]]%Z in
  ∃ r, mul lhs rhs = Some r ∧ get r 0 0 = Some S754_nan.
Proof.
  intros lhs rhs.
  apply (mul_nan_propagates lhs rhs 0 0 1);
    try reflexivity; try (simpl; lia). by left.
Defined.

(** The float product of small integer matrices is exact: for integer
    matrices [A] (m×k) with entries of magnitude at most [α] and [B]
    (k×n) with entries of magnitude at most [β], where
    [max(1,k) * α * β < 2^24], [mul] on floats returns the float image of
    the integer product. *)
Theorem mul_small_integers_exact (A B : Matrix Z) (α β : Z) :
  wf A → wf B → get_width A = get_height B →
  all_cells (λ x, Z.abs x ≤ α)%Z A → all_cells (λ x, Z.abs x ≤ β)%Z B →
  (0 ≤ α < 2 ^ 24)%Z → (0 ≤ β < 2 ^ 24)%Z →
  (Z.max 1 (Z.of_nat (get_width A)) * (α * β) < 2 ^ 24)%Z →
  ∃ AB, mul A B = Some AB
        ∧ mul (f32_of_Zmatrix A) (f32_of_Zmatrix B)
          = Some (f32_of_Zmatrix AB).
Proof.
  intros HA HB Hk HAα HBβ Hα Hβ Hbound.
  destruct (mul_exact A B α β) as (AB & ? & ? & _); try done.
  by exists AB.
Qed.

Lemma mul_small_integers_exact_witness :
  let A := matrix_of_rows [[1000; -2000]; [3000; 4000]]%Z in
  let B := matrix_of_rows [[0; 500; -600]; [700; 800; 900]]%Z in
  ∃ AB, mul A B = Some AB
        ∧ mul (f32_of_Zmatrix A) (f32_of_Zmatrix B)
          = Some (f32_of_Zmatrix AB).
Proof.
  intros A B.
  apply (mul_small_integers_exact A B 4000 900);
    try reflexivity; try (repeat constructor; simpl; lia); simpl; lia.
Defined.

(** Transposition reverses a product exactly, rounding included: each
    cell of [mul A B] and the mirrored cell of [mul Bᵀ Aᵀ] add the same
    products in the same order, and binary32 multiplication commutes.
    This holds for all floats, infinities and NaN included. *)
Theorem mul_transpose (A B : Matrix spec_float) :
  wf A → wf B → get_width A = get_height B →
  transpose <$> mul A B = mul (transpose B) (transpose A).
Proof.
  intros HA HB Hk.
  destruct (mul_defined A B) as (r & -> & Hwf & Hh & Hw & Hcells);
    [done|done|lia|].
  destruct (mul_defined (transpose B) (transpose A))
    as (r' & -> & Hwf' & Hh' & Hw' & Hcells');
    [apply wf_Matrix_init|apply wf_Matrix_init|simpl; lia|].
  simpl in Hh', Hw'. simpl. f_equal.
  apply matrix_ext; try done; [apply wf_Matrix_init|simpl; lia..|].
  simpl. intros i j Hi Hj. rewrite Hw in Hi. rewrite Hh in Hj.
  unfold transpose at 1. rewrite get_Matrix_init by lia.
  rewrite Hcells' by (simpl; lia). f_equal.
  unfold cell. rewrite Hcells by done. simpl. rewrite <- Hk.
  symmetry. apply dot_transpose; try done; lia.
Qed.

Lemma mul_transpose_witness :
  let A := matrix_of_rows [[f32_of_Z 1; S754_infinity true];
                           [f32_of_Z 3; f32_of_Z 4097]] in
  let B := f32_matrix [[5; 4097; 0]; [7; 8; -9]]%Z in
  (wf A ∧ wf B ∧ get_width A = get_height B)
  ∧ transpose <$> mul A B = mul (transpose B) (transpose A).
Proof.
  intros A B. split; [by repeat split|].
  apply (mul_transpose A B); reflexivity.
Defined.

(** [mul] is defined exactly when [rhs] has at least as many rows as
    [lhs] has columns, or the result has no cell; in every other case the
    first cell already reads [rhs] below its last row. *)
Theorem mul_defined_iff {T : Type} `{Scalar T} (lhs rhs : Matrix T) :
  wf lhs → wf rhs →
  is_Some (mul lhs rhs)
  ↔ get_width lhs ≤ get_height rhs ∨ get_height lhs = 0 ∨ get_width rhs = 0.
Proof.
  intros Hl Hr. split.
  - intros [r Hmul].
    destruct (decide (get_width lhs ≤ get_height rhs)); [by left|].
    destruct (decide (get_height lhs = 0)); [by right; left|].
    destruct (decide (get_width rhs = 0)); [by right; right|].
    rewrite mul_undefined in Hmul by (done || lia). done.
  - intros [Hk|Hempty].
    + destruct (mul_defined lhs rhs) as (r & -> & _); done.
    + by rewrite mul_empty.
Qed.

Lemma mul_defined_iff_witness :
  let lhs := f32_matrix [[1; 2; 3]]%Z in
  let rhs := f32_matrix [[4]; [5]]%Z in
  (wf lhs ∧ wf rhs)
  ∧ (is_Some (mul lhs rhs)
     ↔ get_width lhs ≤ get_height rhs ∨ get_height lhs = 0
       ∨ get_width rhs = 0).
Proof.
  intros lhs rhs. split; [by split|].
  apply (mul_defined_iff lhs rhs); reflexivity.
Defined.
